(** * Depth-limited minimax with alpha-beta pruning on a 3x3 board

    Shallow embedding of [minmax_pruning_algorithm.py]: the class [State]
    (board list, [is_winner], [is_full], [is_terminal], [evaluate]) and the
    function [minimax_pruning].

    Python objects live in a store.  A [State] object holds, in its attribute
    [board], a reference to a list object; [list.copy()] allocates a new list
    object, and an item assignment writes through the reference.  The search
    is therefore a computation in a store-and-exception monad.

    Modelling decisions:
    - a cell is one of the three strings the program ever writes:
      [" "], ["X"], ["O"]; a player symbol is ["X"] or ["O"];
    - [depth] is a natural number (the callers pass 3 and 1);
    - [alpha] and [beta] are integers extended with the two infinities
      ([-math.inf], [math.inf]);
    - the text written by [print] is not modelled, but the evaluation of the
      format arguments is: [last_move + 1] raises [TypeError] when
      [last_move] is [None];
    - the argument [indent] only feeds the text of the trace and is left out. *)

From Stdlib Require Import ZArith Lia List.
From stdpp Require Import base option list gmap.
Import ListNotations.
Local Open Scope Z_scope.

(** ** Values *)

Inductive mark := X | O.

Inductive cell := Empty | Mark (m : mark).

Definition mark_eqb (a b : mark) : bool :=
  match a, b with
  | X, X | O, O => true
  | _, _ => false
  end.

(** [board[i] == symbol] *)
Definition cell_is (c : cell) (symbol : mark) : bool :=
  match c with
  | Mark m => mark_eqb m symbol
  | Empty => false
  end.

(** ["O" if player == "X" else "X"] *)
Definition opponent (player : mark) : mark :=
  match player with X => O | O => X end.

(** Integers extended with [-math.inf] and [math.inf]. *)
Inductive num := NegInf | Int (z : Z) | PosInf.

Definition num_ltb (a b : num) : bool :=
  match a, b with
  | NegInf, NegInf => false
  | NegInf, _ => true
  | Int _, NegInf => false
  | Int x, Int y => x <? y
  | Int _, PosInf => true
  | PosInf, _ => false
  end.

(** [a <= b] *)
Definition num_leb (a b : num) : bool := negb (num_ltb b a).

(** [min(a, b)]: Python keeps the first argument unless the second is
    strictly smaller. *)
Definition num_min (a b : num) : num := if num_ltb b a then b else a.

(** [max(a, b)]: the first argument unless the second is strictly larger. *)
Definition num_max (a b : num) : num := if num_ltb a b then b else a.

(** ** Exceptions and results *)

Inductive exn :=
| TypeError        (* [None + 1] *)
| IndexError       (* list index out of range *)
| ValueError       (* [min([])], [max([])], [list.index] of an absent value *)
| AttributeError.  (* the reference does not denote an object of the store *)

Inductive result (A : Type) :=
| Ok (a : A)
| Raise (e : exn).
Arguments Ok {A} a.
Arguments Raise {A} e.

Definition rbind {A B} (r : result A) (k : A -> result B) : result B :=
  match r with
  | Ok a => k a
  | Raise e => Raise e
  end.

Notation "x <-r c ;; k" := (rbind c (fun x => k))
  (at level 100, c at next level, right associativity).

(** ** Methods of [State], as functions of the contents of [self.board] *)

(** [board[i]] *)
Definition getitem {A} (l : list A) (i : nat) : result A :=
  match l !! i with
  | Some a => Ok a
  | None => Raise IndexError
  end.

(** [all(board[i] == symbol for i in idxs)]: the generator stops at the
    first cell that differs. *)
Fixpoint all_cells (board : list cell) (symbol : mark) (idxs : list nat)
  : result bool :=
  match idxs with
  | [] => Ok true
  | i :: rest =>
      c <-r getitem board i ;;
      if cell_is c symbol then all_cells board symbol rest else Ok false
  end.

(** The lines in the order [is_winner] tests them: rows
    ([range(0, 9, 3)], [j in range(3)]), columns ([range(3)],
    [j in range(0, 9, 3)]), then [range(0, 9, 4)] and [range(2, 7, 2)]. *)
Definition rows : list (list nat) :=
  [[0; 1; 2]; [3; 4; 5]; [6; 7; 8]]%nat.
Definition columns : list (list nat) :=
  [[0; 3; 6]; [1; 4; 7]; [2; 5; 8]]%nat.
Definition diagonals : list (list nat) :=
  [[0; 4; 8]; [2; 4; 6]]%nat.
Definition lines : list (list nat) := rows ++ columns ++ diagonals.

Fixpoint any_line (board : list cell) (symbol : mark) (ls : list (list nat))
  : result bool :=
  match ls with
  | [] => Ok false
  | l :: rest =>
      w <-r all_cells board symbol l ;;
      if w then Ok true else any_line board symbol rest
  end.

Definition is_winner (board : list cell) (symbol : mark) : result bool :=
  any_line board symbol lines.

(** [" " not in self.board] *)
Definition is_full (board : list cell) : bool :=
  negb (existsb (fun c => match c with Empty => true | _ => false end) board).

(** [is_winner("X") or is_winner("O") or is_full()] *)
Definition is_terminal (board : list cell) : result bool :=
  wx <-r is_winner board X ;;
  if wx then Ok true else
  wo <-r is_winner board O ;;
  if wo then Ok true else Ok (is_full board).

(** [for pos in idxs: if board[pos] == player: score += w] *)
Fixpoint add_weights (board : list cell) (player : mark) (w : Z)
  (idxs : list nat) (score : Z) : result Z :=
  match idxs with
  | [] => Ok score
  | pos :: rest =>
      c <-r getitem board pos ;;
      add_weights board player w rest
        (if cell_is c player then score + w else score)
  end.

Definition corners : list nat := [0; 2; 6; 8]%nat.
Definition center : nat := 4%nat.
Definition sides : list nat := [1; 3; 5; 7]%nat.

Definition evaluate (board : list cell) (player : mark) : result Z :=
  let score := 0 in
  let sign := if mark_eqb player X then -1 else 1 in
  score <-r add_weights board player 3 corners score ;;
  score <-r add_weights board player 2 sides score ;;
  c <-r getitem board center ;;
  let score := if cell_is c player then score + 4 else score in
  Ok (sign * score).

(** ** The store *)

Definition loc := nat.

(** [objs] maps a [State] object to the reference held in its attribute
    [board]; [lists] maps a list object to its contents. *)
Record store := Store {
  objs : gmap loc loc;
  lists : gmap loc (list cell)
}.

(** Computations that read and write the store and may raise. *)
Definition M (A : Type) : Type := store -> result (A * store).

Definition ret {A} (a : A) : M A := fun h => Ok (a, h).

Definition bind {A B} (m : M A) (k : A -> M B) : M B :=
  fun h =>
    match m h with
    | Ok (a, h') => k a h'
    | Raise e => Raise e
    end.

Definition raise {A} (e : exn) : M A := fun _ => Raise e.

(** A computation that does not touch the store. *)
Definition lift {A} (r : result A) : M A :=
  fun h =>
    match r with
    | Ok a => Ok (a, h)
    | Raise e => Raise e
    end.

Notation "x <- c ;; k" := (bind c (fun x => k))
  (at level 100, c at next level, right associativity).

(** A new list object holding [cells]. *)
Definition new_list (cells : list cell) : M loc :=
  fun h =>
    let l := fresh (dom (lists h)) in
    Ok (l, Store (objs h) (<[l := cells]> (lists h))).

(** [State()]: [__init__] binds [self.board] to the new list [[" "] * 9]. *)
Definition State_new : M loc :=
  l <- new_list (replicate 9 Empty) ;;
  fun h =>
    let s := fresh (dom (objs h)) in
    Ok (s, Store (<[s := l]> (objs h)) (lists h)).

(** [state.board], the reference. *)
Definition get_board (state : loc) : M loc :=
  fun h =>
    match objs h !! state with
    | Some l => Ok (l, h)
    | None => Raise AttributeError
    end.

(** [state.board = l] *)
Definition set_board (state : loc) (l : loc) : M unit :=
  fun h =>
    match objs h !! state with
    | Some _ => Ok (tt, Store (<[state := l]> (objs h)) (lists h))
    | None => Raise AttributeError
    end.

(** The contents of the list object [l]. *)
Definition list_contents (l : loc) : M (list cell) :=
  fun h =>
    match lists h !! l with
    | Some cells => Ok (cells, h)
    | None => Raise AttributeError
    end.

(** [l.copy()] *)
Definition list_copy (l : loc) : M loc :=
  cells <- list_contents l ;;
  new_list cells.

(** [l[i]] *)
Definition list_getitem (l : loc) (i : nat) : M cell :=
  cells <- list_contents l ;;
  lift (getitem cells i).

(** [l[i] = c] *)
Definition list_setitem (l : loc) (i : nat) (c : cell) : M unit :=
  cells <- list_contents l ;;
  if decide (i < length cells)%nat
  then fun h => Ok (tt, Store (objs h) (<[l := <[i := c]> cells]> (lists h)))
  else raise IndexError.

(** The methods of [State] only read [self.board]. *)
Definition State_is_winner (state : loc) (symbol : mark) : M bool :=
  l <- get_board state ;;
  cells <- list_contents l ;;
  lift (is_winner cells symbol).

Definition State_is_full (state : loc) : M bool :=
  l <- get_board state ;;
  cells <- list_contents l ;;
  ret (is_full cells).

Definition State_evaluate (state : loc) (player : mark) : M Z :=
  l <- get_board state ;;
  cells <- list_contents l ;;
  lift (evaluate cells player).

(** ** [minimax_pruning] *)

(** The format argument [last_move + 1] of the trace lines of the four
    non-recursive branches. *)
Definition trace_last_move (last_move : option nat) : M unit :=
  match last_move with
  | Some _ => ret tt
  | None => raise TypeError
  end.

(** Lines 149-151: [new_state = State()],
    [new_state.board = state.board.copy()], [new_state.board[i] = player]. *)
Definition successor (state : loc) (i : nat) (player : mark) : M loc :=
  new_state <- State_new ;;
  l <- get_board state ;;
  l' <- list_copy l ;;
  _ <- set_board new_state l' ;;
  l'' <- get_board new_state ;;
  _ <- list_setitem l'' i (Mark player) ;;
  ret new_state.

(** [min(scores)] and [max(scores)] of a list of integers. *)
Definition list_min (scores : list Z) : result Z :=
  match scores with
  | [] => Raise ValueError
  | s :: rest => Ok (fold_left (fun m x => if x <? m then x else m) rest s)
  end.

Definition list_max (scores : list Z) : result Z :=
  match scores with
  | [] => Raise ValueError
  | s :: rest => Ok (fold_left (fun m x => if m <? x then x else m) rest s)
  end.

(** [scores.index(v)]: the position of the first element equal to [v]. *)
Fixpoint index (v : Z) (scores : list Z) : result nat :=
  match scores with
  | [] => Raise ValueError
  | s :: rest =>
      if s =? v then Ok 0%nat
      else k <-r index v rest ;; Ok (S k)
  end.

(** Lines 165-173: the choice among the explored children. *)
Definition select_best (player : mark) (scores : list Z) (moves : list nat)
  : result (Z * option nat) :=
  best_score_index <-r
    (if mark_eqb player X
     then m <-r list_min scores ;; index m scores
     else m <-r list_max scores ;; index m scores) ;;
  move <-r getitem moves best_score_index ;;
  score <-r getitem scores best_score_index ;;
  Ok (score, Some move).

(** Lines 147-163: the loop over [range(9)], with the call on the successor
    abstracted as [call].  [alpha] and [beta] are the loop-carried
    values of the two variables; the result is [(scores, moves)]. *)
Fixpoint explore
  (call : loc -> num -> num -> nat -> M (Z * option nat))
  (state : loc) (player : mark) (range : list nat) (alpha beta : num)
  (scores : list Z) (moves : list nat) : M (list Z * list nat) :=
  match range with
  | [] => ret (scores, moves)
  | i :: rest =>
      l <- get_board state ;;
      c <- list_getitem l i ;;
      match c with
      | Empty =>
          new_state <- successor state i player ;;
          r <- call new_state alpha beta i ;;
          let score := fst r in
          let scores := scores ++ [score] in
          let moves := moves ++ [(i + 1)%nat] in
          let beta :=
            if mark_eqb player X then num_min beta (Int score) else beta in
          let alpha :=
            if mark_eqb player X then alpha else num_max alpha (Int score) in
          if num_leb beta alpha then ret (scores, moves)
          else explore call state player rest alpha beta scores moves
      | Mark _ => explore call state player rest alpha beta scores moves
      end
  end.

Fixpoint minimax_pruning (state : loc) (player : mark) (depth : nat)
  (alpha beta : num) (last_move : option nat) {struct depth}
  : M (Z * option nat) :=
  wx <- State_is_winner state X ;;
  if wx then
    _ <- trace_last_move last_move ;;
    ret (-100, None)
  else
  wo <- State_is_winner state O ;;
  if wo then
    _ <- trace_last_move last_move ;;
    ret (100, None)
  else
  full <- State_is_full state ;;
  if full then
    _ <- trace_last_move last_move ;;
    ret (0, None)
  else
  match depth with
  | 0%nat =>
      _ <- trace_last_move last_move ;;
      _ <- State_evaluate state (opponent player) ;;
      score <- State_evaluate state (opponent player) ;;
      ret (score, None)
  | S depth' =>
      r <-
        explore
          (fun new_state alpha beta i =>
             minimax_pruning new_state (opponent player) depth' alpha beta
               (Some i))
          state player (seq 0 9) alpha beta [] [] ;;
      lift (select_best player (fst r) (snd r))
  end.

(** The store holding one [State] whose board list is [cells], and the
    outcome of a call on that state. *)
Definition store_of (cells : list cell) : store :=
  Store {[ 0%nat := 0%nat ]} {[ 0%nat := cells ]}.

Definition outcome {A} (r : result (A * store)) : result A :=
  match r with
  | Ok (a, _) => Ok a
  | Raise e => Raise e
  end.

Definition run (cells : list cell) (player : mark) (depth : nat)
  (alpha beta : num) (last_move : option nat) : result (Z * option nat) :=
  outcome (minimax_pruning 0%nat player depth alpha beta last_move
             (store_of cells)).

(** ** The reference: full-width minimax

    The functions of this section follow the words of the specification
    (sections 4.1 to 4.3), not the program: they are what the program is
    compared with. *)

Module Spec.

(** The cell at index [i]; the board has the nine indices 0..8. *)
Definition at_ (b : list cell) (i : nat) : cell := nth i b Empty.

(** "true iff any of the 8 lines (3 rows, 3 columns, 2 diagonals) is fully
    occupied by [symbol]" *)
Definition winner (b : list cell) (symbol : mark) : bool :=
  existsb (forallb (fun i => cell_is (at_ b i) symbol)) lines.

(** "true iff no Empty cell remains" *)
Definition full (b : list cell) : bool :=
  forallb (fun c => match c with Empty => false | Mark _ => true end) b.

(** "true iff either symbol has won or the board is full" *)
Definition terminal (b : list cell) : bool :=
  winner b X || winner b O || full b.

Definition is_empty (b : list cell) (i : nat) : bool :=
  match at_ b i with Empty => true | Mark _ => false end.

(** "all indices currently Empty, in ascending index order (0..8)" *)
Definition legal_moves (b : list cell) : list nat :=
  List.filter (is_empty b) (seq 0 9).

(** "center cell weight 4, corner cells weight 3 each, edge cells weight 2
    each" *)
Definition weight (i : nat) : Z :=
  match i with
  | 4%nat => 4
  | 0%nat | 2%nat | 6%nat | 8%nat => 3
  | 1%nat | 3%nat | 5%nat | 7%nat => 2
  | _ => 0
  end.

(** "summed over cells occupied by [symbol]" *)
Definition occupancy (b : list cell) (symbol : mark) : Z :=
  fold_right Z.add 0
    (map (fun i => if cell_is (at_ b i) symbol then weight i else 0)
       (seq 0 9)).

(** "negative when [symbol == MarkA], positive otherwise" *)
Definition sign (symbol : mark) : Z :=
  match symbol with X => -1 | O => 1 end.

Definition static_eval (b : list cell) (symbol : mark) : Z :=
  sign symbol * occupancy b symbol.

(** "returns [board.evaluate(opponent_of(mover_symbol))]" *)
Definition score_at_cutoff (b : list cell) (mover : mark) : Z :=
  static_eval b (opponent mover).

(** The successor board: a copy with cell [i] changed. *)
Definition place (b : list cell) (i : nat) (mover : mark) : list cell :=
  <[i := Mark mover]> b.

(** Least and greatest element of a list of scores (0 for no score). *)
Definition minimum (l : list Z) : Z :=
  match l with [] => 0 | v :: vs => fold_right Z.min v vs end.
Definition maximum (l : list Z) : Z :=
  match l with [] => 0 | v :: vs => fold_right Z.max v vs end.

(** Unpruned search: terminal scoring in the priority order of
    section 4.3, the static evaluator at depth 0, otherwise the minimum
    (mover X) or maximum (mover O) over all legal moves, in ascending
    order, of the value of the successor for the opponent at [depth - 1]. *)
Fixpoint minimax_full (b : list cell) (mover : mark) (depth : nat) : Z :=
  if winner b X then -100
  else if winner b O then 100
  else if full b then 0
  else
    match depth with
    | 0%nat => score_at_cutoff b mover
    | S d =>
        let children :=
          map (fun i => minimax_full (place b i mover) (opponent mover) d)
            (legal_moves b) in
        match mover with
        | X => minimum children
        | O => maximum children
        end
    end.

End Spec.

(** ** The search as a function of the board contents

    The same control flow as [minimax_pruning] on a board given by value:
    no store and no exception.  [minimax_pruning_run] below shows that the
    program computes it; the properties of the scores are proved on it. *)

Module Pure.

Fixpoint loop (child : list cell -> num -> num -> Z) (b : list cell)
  (player : mark) (range : list nat) (alpha beta : num)
  (scores : list Z) (moves : list nat) : list Z * list nat :=
  match range with
  | [] => (scores, moves)
  | i :: rest =>
      if Spec.is_empty b i then
        let score := child (Spec.place b i player) alpha beta in
        let scores := scores ++ [score] in
        let moves := moves ++ [(i + 1)%nat] in
        let beta :=
          if mark_eqb player X then num_min beta (Int score) else beta in
        let alpha :=
          if mark_eqb player X then alpha else num_max alpha (Int score) in
        if num_leb beta alpha then (scores, moves)
        else loop child b player rest alpha beta scores moves
      else loop child b player rest alpha beta scores moves
  end.

Definition best (player : mark) (scores : list Z) (moves : list nat)
  : Z * option nat :=
  match select_best player scores moves with
  | Ok v => v
  | Raise _ => (0, None)
  end.

(** One node: [child], when present, is the search on a successor for
    the opponent with one ply less; it is absent at depth 0. *)
Definition node (child : option (list cell -> num -> num -> Z))
  (b : list cell) (player : mark) (alpha beta : num) : Z * option nat :=
  if Spec.winner b X then (-100, None)
  else if Spec.winner b O then (100, None)
  else if Spec.full b then (0, None)
  else
    match child with
    | None => (Spec.score_at_cutoff b player, None)
    | Some child =>
        let r := loop child b player (seq 0 9) alpha beta [] [] in
        best player (fst r) (snd r)
    end.

Fixpoint search (b : list cell) (player : mark) (depth : nat)
  (alpha beta : num) {struct depth} : Z * option nat :=
  match depth with
  | 0%nat => node None b player alpha beta
  | S d =>
      node
        (Some (fun b' a be => fst (search b' (opponent player) d a be)))
        b player alpha beta
  end.

(** The children explored at a node of the recursive case. *)
Definition explored (b : list cell) (player : mark) (d : nat)
  (alpha beta : num) : list Z * list nat :=
  loop (fun b' a be => fst (search b' (opponent player) d a be))
    b player (seq 0 9) alpha beta [] [].

End Pure.

(** ** Well-formed boards and stores *)

(** The state [s] of the store [h] has the board contents [b]. *)
Definition points_to (h : store) (s : loc) (b : list cell) : Prop :=
  exists l, objs h !! s = Some l /\ lists h !! l = Some b.

(** Every object of [h] is in [h'], unchanged. *)
Definition extends (h h' : store) : Prop :=
  objs h ⊆ objs h' /\ lists h ⊆ lists h'.

(** The call raises on the trace line: [last_move] is [None] in one of the
    four non-recursive branches. *)
Definition trace_fails (b : list cell) (depth : nat) (last_move : option nat)
  : bool :=
  match last_move with
  | Some _ => false
  | None => Spec.terminal b || Nat.eqb depth 0
  end.

(** ** Definitions used by the proofs *)

(** A call on a successor returns what [child] gives on its board and
    only allocates. *)
Definition call_computes
  (call : loc -> num -> num -> nat -> M (Z * option nat))
  (child : list cell -> num -> num -> Z) : Prop :=
  forall h s b alpha beta i,
    points_to h s b -> length b = 9%nat ->
    exists m h',
      call s alpha beta i h = Ok ((child b alpha beta, m), h') /\
      extends h h'.

(** The score of the three terminal cases, in the order they are tested. *)
Definition terminal_score (b : list cell) : Z :=
  if Spec.winner b X then -100
  else if Spec.winner b O then 100
  else 0.

(** The body of [minimax_pruning] after the three terminal tests. *)
Definition recursive_phase (state : loc) (player : mark) (depth' : nat)
  (alpha beta : num) : M (Z * option nat) :=
  r <-
    explore
      (fun new_state alpha beta i =>
         minimax_pruning new_state (opponent player) depth' alpha beta
           (Some i))
      state player (seq 0 9) alpha beta [] [] ;;
  lift (select_best player (fst r) (snd r)).

Definition cutoff_phase (state : loc) (player : mark)
  (last_move : option nat) : M (Z * option nat) :=
  _ <- trace_last_move last_move ;;
  _ <- State_evaluate state (opponent player) ;;
  score <- State_evaluate state (opponent player) ;;
  ret (score, None).

(** ** Order on the extended integers *)

Definition nlt (a b : num) : Prop := num_ltb a b = true.
Definition nle (a b : num) : Prop := num_ltb b a = false.

(** Greatest and least element of a list of scores, as extended integers. *)
Definition nmax_list (l : list Z) : num :=
  fold_right (fun v acc => num_max (Int v) acc) NegInf l.
Definition nmin_list (l : list Z) : num :=
  fold_right (fun v acc => num_min (Int v) acc) PosInf l.

(** A value seen through the window [(alpha, beta)]: values at or below
    [alpha] are not told apart, nor are values at or above [beta]. *)
Definition clamp (alpha beta v : num) : num := num_max alpha (num_min beta v).

(** The score [r] returned for the window and the full-width value [t]
    are the same seen through the window. *)
Definition agree (alpha beta : num) (r t : Z) : Prop :=
  clamp alpha beta (Int r) = clamp alpha beta (Int t).

(** The full-width values [value] of the successors for the empty cells of
    a range. *)
Definition values (value : list cell -> Z) (b : list cell) (player : mark)
  (range : list nat) : list Z :=
  map (fun i => value (Spec.place b i player))
    (List.filter (Spec.is_empty b) range).

(** ** Boards used as examples *)

(** [O O _ / X X _ / _ _ _]: O wins at once at cell index 2. *)
Definition board_win_in_one : list cell :=
  [Mark O; Mark O; Empty; Mark X; Mark X; Empty; Empty; Empty; Empty].

(** [X O X / X O O / O X _]: only cell index 8 is empty, nobody has won. *)
Definition board_last_cell : list cell :=
  [Mark X; Mark O; Mark X; Mark X; Mark O; Mark O; Mark O; Mark X; Empty].

(** [X X X / O O _ / _ _ _]: X has the top row. *)
Definition board_X_won : list cell :=
  [Mark X; Mark X; Mark X; Mark O; Mark O; Empty; Empty; Empty; Empty].

(** [O O O / X X _ / X _ _]: O has the top row, X has no line. *)
Definition board_O_won : list cell :=
  [Mark O; Mark O; Mark O; Mark X; Mark X; Empty; Mark X; Empty; Empty].

(** [X O X / X O O / O X X]: full, nobody has won. *)
Definition board_draw : list cell :=
  [Mark X; Mark O; Mark X; Mark X; Mark O; Mark O; Mark O; Mark X; Mark X].

(** ** The players and the game

    [input()] reads the next line of the standard input and raises
    [EOFError] when there is none.  A line is given with what [int] makes of
    it: an integer, or [ValueError].  What [print] and [display] write is
    not modelled.  A [Game] object is referenced by no other object, so its
    attributes are a record passed along; its [State], shared with the
    search, lives in the store. *)

Inductive line :=
| IntLine (n : Z)   (* [int(text)] is [n] *)
| BadLine.          (* [int(text)] raises [ValueError] *)

(** A move as the players return it: an integer, or [None]. *)
Inductive move :=
| NoMove
| Move (n : Z).

Inductive Player :=
| PlayerBase (symbol : mark)                 (* [Player(symbol)] *)
| HumanPlayer (symbol : mark)                (* [HumanPlayer(symbol)] *)
| AIPlayer (symbol : mark) (depth : nat).    (* [AIPlayer(symbol, depth)] *)

(** [players] is the dictionary [{"X": player_X, "O": player_O}]. *)
Record Game := MkGame {
  state : loc;
  players : mark -> Player;
  current_player : mark
}.

(** Exceptions of the game: those of the search, and the two below. *)
Inductive io_exn :=
| Exn (e : exn)
| EOFError
| NotImplementedError.

Inductive io_result (A : Type) :=
| Done (a : A) (inputs : list line) (h : store)
| Fail (e : io_exn).
Arguments Done {A} a inputs h.
Arguments Fail {A} e.

(** Computations that read the input, use the store and may raise. *)
Definition IO (A : Type) : Type := list line -> store -> io_result A.

Definition io_ret {A} (a : A) : IO A := fun inputs h => Done a inputs h.

Definition io_bind {A B} (m : IO A) (k : A -> IO B) : IO B :=
  fun inputs h =>
    match m inputs h with
    | Done a inputs' h' => k a inputs' h'
    | Fail e => Fail e
    end.

(** A computation on the store alone. *)
Definition io_lift {A} (m : M A) : IO A :=
  fun inputs h =>
    match m h with
    | Ok (a, h') => Done a inputs h'
    | Raise e => Fail (Exn e)
    end.

Notation "x <<- c ;; k" := (io_bind c (fun x => k))
  (at level 100, c at next level, right associativity).

(** The position a list of length [len] gives to the index [k]: negative
    indices count from the end. *)
Definition py_index (len : nat) (k : Z) : result nat :=
  if (0 <=? k) && (k <? Z.of_nat len) then Ok (Z.to_nat k)
  else if (- Z.of_nat len <=? k) && (k <? 0)
       then Ok (Z.to_nat (Z.of_nat len + k))
       else Raise IndexError.

(** [Game.__init__]: a new [State], [current_player = "O"]. *)
Definition Game_new (player_X player_O : Player) : M Game :=
  s <- State_new ;;
  ret (MkGame s (fun m => match m with X => player_X | O => player_O end) O).

(** [switch_player] *)
Definition switch_player (game : Game) : Game :=
  MkGame (state game) (players game) (opponent (current_player game)).

(** [self.state.board[move - 1] == " "] *)
Definition is_valid_move (game : Game) (mv : move) : M bool :=
  l <- get_board (state game) ;;
  match mv with
  | NoMove => raise TypeError
  | Move n =>
      cells <- list_contents l ;;
      i <- lift (py_index (length cells) (n - 1)) ;;
      c <- lift (getitem cells i) ;;
      ret (match c with Empty => true | Mark _ => false end)
  end.

(** [make_move]: the list of the game's state is written in place. *)
Definition make_move (game : Game) (mv : move) : M bool :=
  valid <- is_valid_move game mv ;;
  if valid then
    l <- get_board (state game) ;;
    match mv with
    | NoMove => raise TypeError
    | Move n =>
        cells <- list_contents l ;;
        i <- lift (py_index (length cells) (n - 1)) ;;
        _ <- list_setitem l i (Mark (current_player game)) ;;
        ret true
    end
  else ret false.

(** [HumanPlayer.get_move]: the loop reads lines until one is an integer
    from 1 to 9 that [is_valid_move] accepts; [except ValueError] resumes
    the loop, any other exception leaves it. *)
Fixpoint human_get_move (game : Game) (inputs : list line) (h : store)
  : io_result move :=
  match inputs with
  | [] => Fail EOFError
  | BadLine :: rest => human_get_move game rest h
  | IntLine n :: rest =>
      if (1 <=? n) && (n <=? 9) then
        match is_valid_move game (Move n) h with
        | Ok (true, h') => Done (Move n) rest h'
        | Ok (false, h') => human_get_move game rest h'
        | Raise ValueError => human_get_move game rest h
        | Raise e => Fail (Exn e)
        end
      else human_get_move game rest h
  end.

(** [AIPlayer.get_move]:
    [_, move = minimax_pruning(game.state, self.symbol, self.depth)]. *)
Definition ai_get_move (symbol : mark) (depth : nat) (game : Game) : M move :=
  r <- minimax_pruning (state game) symbol depth NegInf PosInf None ;;
  ret (match snd r with
       | Some m => Move (Z.of_nat m)
       | None => NoMove
       end).

(** [player.get_move(game)], by the class of the player. *)
Definition get_move (player : Player) (game : Game) : IO move :=
  match player with
  | PlayerBase _ => fun _ _ => Fail NotImplementedError
  | HumanPlayer _ => human_get_move game
  | AIPlayer symbol depth => io_lift (ai_get_move symbol depth game)
  end.

(** [display]: the nine cells are read in order, three per printed row. *)
Fixpoint read_cells (cells : list cell) (idxs : list nat) : result unit :=
  match idxs with
  | [] => Ok tt
  | i :: rest => _ <-r getitem cells i ;; read_cells cells rest
  end.

Definition State_display (s : loc) : M unit :=
  l <- get_board s ;;
  cells <- list_contents l ;;
  lift (read_cells cells (seq 0 9)).

Definition State_is_terminal (s : loc) : M bool :=
  l <- get_board s ;;
  cells <- list_contents l ;;
  lift (is_terminal cells).

(** What the last line of [play] prints after "Winner:". *)
Inductive verdict := Winner (m : mark) | Draw.

(** The loop of [play], for at most [rounds] iterations: [None] when the
    board is not terminal after that many. *)
Fixpoint play_loop (rounds : nat) (game : Game) : IO (option Game) :=
  match rounds with
  | 0%nat => io_ret None
  | S rounds' =>
      t <<- io_lift (State_is_terminal (state game)) ;;
      if t then io_ret (Some game)
      else
        _ <<- io_lift (State_display (state game)) ;;
        mv <<- get_move (players game (current_player game)) game ;;
        moved <<- io_lift (make_move game mv) ;;
        play_loop rounds' (if moved then switch_player game else game)
  end.

(** The end of [play]: the last [display] and the winner that is printed. *)
Definition announce (game : Game) : M verdict :=
  _ <- State_display (state game) ;;
  wx <- State_is_winner (state game) X ;;
  if wx then ret (Winner X)
  else
    wo <- State_is_winner (state game) O ;;
    if wo then ret (Winner O) else ret Draw.

Definition play (rounds : nat) (game : Game) : IO (option verdict) :=
  g <<- play_loop rounds game ;;
  match g with
  | None => io_ret None
  | Some game' => v <<- io_lift (announce game') ;; io_ret (Some v)
  end.

(** The script: [Game(AIPlayer("X", depth=1), AIPlayer("O", depth=3))] on
    an empty store, then [play]. *)
Definition main (rounds : nat) (inputs : list line)
  : io_result (option verdict) :=
  (game <<- io_lift (Game_new (AIPlayer X 1) (AIPlayer O 3)) ;;
   play rounds game) inputs (Store ∅ ∅).

(** A line that [HumanPlayer.get_move] accepts on the board [b]: an integer
    from 1 to 9 whose cell is empty. *)
Definition accepts (b : list cell) (ln : line) : bool :=
  match ln with
  | IntLine n => (1 <=? n) && (n <=? 9) && Spec.is_empty b (Z.to_nat (n - 1))
  | BadLine => false
  end.

(** A player whose [get_move] can return a move: a human, or a search of
    depth at least 1. *)
Definition can_move (p : Player) : Prop :=
  match p with
  | PlayerBase _ => False
  | HumanPlayer _ => True
  | AIPlayer _ depth => depth <> 0%nat
  end.

Definition is_human (p : Player) : Prop :=
  match p with
  | HumanPlayer _ => True
  | _ => False
  end.

(** The number of cells of a board that hold [c]. *)
Definition count_cells (c : cell) (b : list cell) : nat :=
  length (List.filter
            (fun c' =>
               match c, c' with
               | Empty, Empty => true
               | Mark m, Mark m' => mark_eqb m m'
               | _, _ => false
               end) b).

(** ** Tactics *)

(** A board of nine cells, cell by cell. *)
Ltac board9 b H :=
  repeat (destruct b as [|? b]; [discriminate H|]);
  destruct b; [clear H|discriminate H].

(** Case analysis on extended integers, then linear arithmetic. *)
Ltac num_cases :=
  unfold nlt, nle, num_max, num_min, num_leb in *;
  repeat match goal with
         | n : num |- _ => destruct n
         end;
  cbn [num_ltb negb] in *;
  repeat match goal with
         | H : context [Z.ltb ?p ?q] |- _ =>
             destruct (Z.ltb_spec p q); cbn [num_ltb negb] in *
         | |- context [Z.ltb ?p ?q] =>
             destruct (Z.ltb_spec p q); cbn [num_ltb negb] in *
         end;
  simplify_eq;
  try tauto;
  try (repeat split; intros; simplify_eq; first [lia | f_equal; lia]).

(** * Proofs *)

(** ** Boards of nine cells *)

Lemma getitem_at (b : list cell) (i : nat) :
  (i < length b)%nat -> getitem b i = Ok (Spec.at_ b i).
Proof.
  intros Hi. unfold getitem, Spec.at_.
  destruct (lookup_lt_is_Some_2 b i Hi) as [c Hc].
  rewrite Hc. f_equal. symmetry. now apply nth_lookup_Some with (d := Empty).
Qed.

Lemma is_winner_spec (b : list cell) (symbol : mark) :
  length b = 9%nat -> is_winner b symbol = Ok (Spec.winner b symbol).
Proof.
  intros H. board9 b H.
  unfold is_winner, Spec.winner, lines, rows, columns, diagonals.
  cbn -[cell_is].
  repeat match goal with
         | |- context [cell_is ?c symbol] =>
             destruct (cell_is c symbol); cbn -[cell_is]
         end; reflexivity.
Qed.

Lemma is_full_spec (b : list cell) : is_full b = Spec.full b.
Proof.
  unfold is_full, Spec.full.
  induction b as [|c b IH]; [reflexivity|].
  cbn. destruct c; cbn; [reflexivity|exact IH].
Qed.

Lemma is_terminal_spec (b : list cell) :
  length b = 9%nat -> is_terminal b = Ok (Spec.terminal b).
Proof.
  intros H. unfold is_terminal, Spec.terminal.
  rewrite !is_winner_spec by exact H. unfold rbind.
  rewrite is_full_spec.
  destruct (Spec.winner b X), (Spec.winner b O); reflexivity.
Qed.

Lemma evaluate_spec (b : list cell) (symbol : mark) :
  length b = 9%nat -> evaluate b symbol = Ok (Spec.static_eval b symbol).
Proof.
  intros H. board9 b H.
  unfold evaluate, Spec.static_eval, Spec.occupancy, Spec.sign.
  cbn -[cell_is Z.mul Z.add].
  repeat match goal with
         | |- context [cell_is ?c symbol] =>
             destruct (cell_is c symbol); cbn -[cell_is Z.mul Z.add]
         end; destruct symbol; reflexivity.
Qed.

(** ** Reading and allocating in the store *)

Lemma extends_refl (h : store) : extends h h.
Proof. split; reflexivity. Qed.

Lemma extends_trans (h1 h2 h3 : store) :
  extends h1 h2 -> extends h2 h3 -> extends h1 h3.
Proof. intros [A1 B1] [A2 B2]. split; etrans; eassumption. Qed.

Lemma points_to_extends (h h' : store) (s : loc) (b : list cell) :
  extends h h' -> points_to h s b -> points_to h' s b.
Proof.
  intros [Ho Hl] (l & H1 & H2). exists l. split.
  - eapply lookup_weaken; eassumption.
  - eapply lookup_weaken; eassumption.
Qed.

Lemma points_to_store_of (b : list cell) : points_to (store_of b) 0%nat b.
Proof. exists 0%nat. split; apply lookup_singleton_eq. Qed.

Lemma bind_Ok {A B} (m : M A) (k : A -> M B) (h h' : store) (a : A) :
  m h = Ok (a, h') -> bind m k h = k a h'.
Proof. intros H. unfold bind. now rewrite H. Qed.

Lemma read_board {A} (h : store) (s : loc) (b : list cell)
  (k : list cell -> M A) :
  points_to h s b ->
  (l <- get_board s ;; cells <- list_contents l ;; k cells) h = k b h.
Proof.
  intros (l & H1 & H2). unfold bind, get_board, list_contents.
  now rewrite H1, H2.
Qed.

Lemma State_is_winner_run (h : store) (s : loc) (b : list cell) (m : mark) :
  points_to h s b -> length b = 9%nat ->
  State_is_winner s m h = Ok (Spec.winner b m, h).
Proof.
  intros Hp Hb. unfold State_is_winner.
  rewrite (read_board h s b) by exact Hp.
  unfold lift. now rewrite is_winner_spec.
Qed.

Lemma State_is_full_run (h : store) (s : loc) (b : list cell) :
  points_to h s b -> State_is_full s h = Ok (Spec.full b, h).
Proof.
  intros Hp. unfold State_is_full.
  rewrite (read_board h s b) by exact Hp.
  unfold ret. now rewrite is_full_spec.
Qed.

Lemma State_evaluate_run (h : store) (s : loc) (b : list cell) (m : mark) :
  points_to h s b -> length b = 9%nat ->
  State_evaluate s m h = Ok (Spec.static_eval b m, h).
Proof.
  intros Hp Hb. unfold State_evaluate.
  rewrite (read_board h s b) by exact Hp.
  unfold lift. now rewrite evaluate_spec.
Qed.

Lemma State_new_run (h : store) :
  State_new h =
  Ok (fresh (dom (objs h)),
      Store (<[fresh (dom (objs h)) := fresh (dom (lists h))]> (objs h))
        (<[fresh (dom (lists h)) := replicate 9 Empty]> (lists h))).
Proof. reflexivity. Qed.

Lemma get_board_run (h : store) (s l : loc) :
  objs h !! s = Some l -> get_board s h = Ok (l, h).
Proof. intros H. unfold get_board. now rewrite H. Qed.

Lemma set_board_run (h : store) (s l l' : loc) :
  objs h !! s = Some l ->
  set_board s l' h = Ok (tt, Store (<[s := l']> (objs h)) (lists h)).
Proof. intros H. unfold set_board. now rewrite H. Qed.

Lemma list_copy_run (h : store) (l : loc) (cells : list cell) :
  lists h !! l = Some cells ->
  list_copy l h =
  Ok (fresh (dom (lists h)),
      Store (objs h) (<[fresh (dom (lists h)) := cells]> (lists h))).
Proof.
  intros H. unfold list_copy, bind, list_contents. now rewrite H.
Qed.

Lemma list_setitem_run (h : store) (l : loc) (cells : list cell) (i : nat)
  (c : cell) :
  lists h !! l = Some cells -> (i < length cells)%nat ->
  list_setitem l i c h =
  Ok (tt, Store (objs h) (<[l := <[i := c]> cells]> (lists h))).
Proof.
  intros H Hi. unfold list_setitem, bind, list_contents. rewrite H.
  destruct (decide (i < length cells)%nat); [reflexivity|contradiction].
Qed.

(** The successor is a new state with a new list: the parent's cells with
    cell [i] set to the mover's symbol.  Nothing that existed is written. *)
Lemma successor_run (h : store) (s : loc) (b : list cell) (i : nat)
  (player : mark) :
  points_to h s b -> (i < length b)%nat ->
  exists s' h',
    successor s i player h = Ok (s', h') /\
    extends h h' /\
    points_to h' s' (Spec.place b i player) /\
    objs h !! s' = None /\
    (forall l, objs h' !! s' = Some l -> lists h !! l = None).
Proof.
  intros (l & Hs & Hl) Hi.
  set (l0 := fresh (dom (lists h))).
  set (s' := fresh (dom (objs h))).
  set (lists1 := <[l0 := replicate 9 Empty]> (lists h)).
  set (l1 := fresh (dom lists1)).
  assert (Hl0 : lists h !! l0 = None)
    by (apply not_elem_of_dom, is_fresh).
  assert (Hs' : objs h !! s' = None)
    by (apply not_elem_of_dom, is_fresh).
  assert (Hl1 : lists1 !! l1 = None)
    by (apply not_elem_of_dom, is_fresh).
  assert (Hl1' : lists h !! l1 = None).
  { destruct (lists h !! l1) eqn:E; [|reflexivity].
    assert (lists1 !! l1 = Some l2); [|congruence].
    unfold lists1. rewrite lookup_insert_ne; [exact E|congruence]. }
  assert (Hne : s' <> s) by congruence.
  assert (Hnl : l0 <> l) by congruence.
  exists s'.
  exists (Store (<[s' := l1]> (<[s' := l0]> (objs h)))
            (<[l1 := <[i := Mark player]> b]> (<[l1 := b]> lists1))).
  split; [|split; [|split; [|split]]].
  - unfold successor.
    rewrite (bind_Ok _ _ _ _ _ (State_new_run h)).
    fold l0. fold s'. fold lists1.
    erewrite bind_Ok
      by (apply get_board_run; cbn;
          rewrite lookup_insert_ne by exact Hne; exact Hs).
    erewrite bind_Ok
      by (apply list_copy_run with (cells := b); cbn; unfold lists1;
          rewrite lookup_insert_ne by exact Hnl; exact Hl).
    cbn [lists objs]. fold lists1. fold l1.
    erewrite bind_Ok
      by (apply set_board_run with (l := l0); cbn; apply lookup_insert_eq).
    erewrite bind_Ok
      by (apply get_board_run; cbn; apply lookup_insert_eq).
    erewrite bind_Ok
      by (apply list_setitem_run with (cells := b);
          [cbn; apply lookup_insert_eq|exact Hi]).
    reflexivity.
  - split; cbn.
    + rewrite insert_insert_eq. now apply insert_subseteq.
    + rewrite insert_insert_eq. unfold lists1.
      etrans; [apply insert_subseteq; exact Hl0|].
      apply insert_subseteq. exact Hl1.
  - exists l1. cbn. split; apply lookup_insert_eq.
  - exact Hs'.
  - cbn. intros l'. rewrite lookup_insert_eq. intros [= <-]. exact Hl1'.
Qed.

Lemma board_getitem_bind {A} (h : store) (s : loc) (b : list cell) (i : nat)
  (k : cell -> M A) :
  points_to h s b -> (i < length b)%nat ->
  (l <- get_board s ;; c <- list_getitem l i ;; k c) h = k (Spec.at_ b i) h.
Proof.
  intros (l & H1 & H2) Hi.
  unfold bind, get_board, list_getitem, list_contents, lift.
  rewrite H1. unfold bind. rewrite H2. now rewrite getitem_at.
Qed.

(** ** Minimum, maximum and first position *)

Lemma fold_min_shift (l : list Z) (a v : Z) :
  fold_right Z.min (Z.min a v) l = Z.min v (fold_right Z.min a l).
Proof. induction l as [|y l IH]; cbn; [lia|rewrite IH; lia]. Qed.

Lemma fold_max_shift (l : list Z) (a v : Z) :
  fold_right Z.max (Z.max a v) l = Z.max v (fold_right Z.max a l).
Proof. induction l as [|y l IH]; cbn; [lia|rewrite IH; lia]. Qed.

Lemma list_min_minimum (scores : list Z) :
  scores <> [] -> list_min scores = Ok (Spec.minimum scores).
Proof.
  destruct scores as [|s rest]; [congruence|intros _]. cbn. f_equal.
  revert s. induction rest as [|y rest IH]; intros s; cbn; [reflexivity|].
  rewrite IH. destruct (Z.ltb_spec y s).
  - replace y with (Z.min s y) at 1 by lia. apply fold_min_shift.
  - replace s with (Z.min s y) at 1 by lia. apply fold_min_shift.
Qed.

Lemma list_max_maximum (scores : list Z) :
  scores <> [] -> list_max scores = Ok (Spec.maximum scores).
Proof.
  destruct scores as [|s rest]; [congruence|intros _]. cbn. f_equal.
  revert s. induction rest as [|y rest IH]; intros s; cbn; [reflexivity|].
  rewrite IH. destruct (Z.ltb_spec s y).
  - replace y with (Z.max s y) at 1 by lia. apply fold_max_shift.
  - replace s with (Z.max s y) at 1 by lia. apply fold_max_shift.
Qed.

Lemma minimum_le (scores : list Z) (v : Z) :
  In v scores -> Spec.minimum scores <= v.
Proof.
  destruct scores as [|s rest]; [intros []|]. cbn [Spec.minimum].
  revert s. induction rest as [|y rest IH]; intros s; cbn.
  - intros [<-|[]]. lia.
  - intros [<-|[<-|H]].
    + specialize (IH s (or_introl eq_refl)). lia.
    + lia.
    + specialize (IH s (or_intror H)). lia.
Qed.

Lemma maximum_ge (scores : list Z) (v : Z) :
  In v scores -> v <= Spec.maximum scores.
Proof.
  destruct scores as [|s rest]; [intros []|]. cbn [Spec.maximum].
  revert s. induction rest as [|y rest IH]; intros s; cbn.
  - intros [<-|[]]. lia.
  - intros [<-|[<-|H]].
    + specialize (IH s (or_introl eq_refl)). lia.
    + lia.
    + specialize (IH s (or_intror H)). lia.
Qed.

Lemma minimum_In (scores : list Z) :
  scores <> [] -> In (Spec.minimum scores) scores.
Proof.
  destruct scores as [|s rest]; [congruence|intros _]. cbn [Spec.minimum].
  revert s. induction rest as [|y rest IH]; intros s; cbn.
  - now left.
  - destruct (IH s) as [H|H].
    + destruct (Z.min_spec y (fold_right Z.min s rest)) as [[_ E]|[_ E]];
        rewrite E; [right; now left|left; exact H].
    + destruct (Z.min_spec y (fold_right Z.min s rest)) as [[_ E]|[_ E]];
        rewrite E; [right; now left|right; right; exact H].
Qed.

Lemma maximum_In (scores : list Z) :
  scores <> [] -> In (Spec.maximum scores) scores.
Proof.
  destruct scores as [|s rest]; [congruence|intros _]. cbn [Spec.maximum].
  revert s. induction rest as [|y rest IH]; intros s; cbn.
  - now left.
  - destruct (IH s) as [H|H].
    + destruct (Z.max_spec y (fold_right Z.max s rest)) as [[_ E]|[_ E]];
        rewrite E; [left; exact H|right; now left].
    + destruct (Z.max_spec y (fold_right Z.max s rest)) as [[_ E]|[_ E]];
        rewrite E; [right; right; exact H|right; now left].
Qed.

(** [index] returns the first position of a value that occurs. *)
Lemma index_first (v : Z) (scores : list Z) :
  In v scores ->
  exists k,
    index v scores = Ok k /\
    scores !! k = Some v /\
    forall j w, (j < k)%nat -> scores !! j = Some w -> w <> v.
Proof.
  induction scores as [|s rest IH]; [intros []|]. intros Hin. cbn [index].
  destruct (Z.eqb_spec s v) as [->|Hne].
  - exists 0%nat. split; [reflexivity|]. split; [reflexivity|]. lia.
  - destruct Hin as [E|Hin]; [contradiction|].
    destruct (IH Hin) as (k & Hk & Hv & Hfirst).
    exists (S k). rewrite Hk. split; [reflexivity|]. split; [exact Hv|].
    intros [|j] w Hj Hw; cbn in Hw.
    + congruence.
    + eapply Hfirst; [|exact Hw]. lia.
Qed.

(** The choice made on a non-empty list of scores, one move per score. *)
Lemma select_best_first (player : mark) (scores : list Z) (moves : list nat) :
  scores <> [] -> length scores = length moves ->
  exists k move,
    select_best player scores moves =
      Ok (match player with
          | X => Spec.minimum scores
          | O => Spec.maximum scores
          end, Some move) /\
    moves !! k = Some move /\
    scores !! k =
      Some (match player with
            | X => Spec.minimum scores
            | O => Spec.maximum scores
            end) /\
    forall j w, (j < k)%nat -> scores !! j = Some w ->
      match player with
      | X => Spec.minimum scores < w
      | O => w < Spec.maximum scores
      end.
Proof.
  intros Hne Hlen. unfold select_best.
  destruct player; cbn [mark_eqb].
  - rewrite list_min_minimum by exact Hne. cbn [rbind].
    destruct (index_first _ _ (minimum_In scores Hne))
      as (k & Hk & Hv & Hfirst).
    assert (Hlt : (k < length moves)%nat)
      by (rewrite <- Hlen; eapply lookup_lt_Some; exact Hv).
    destruct (lookup_lt_is_Some_2 moves k Hlt) as [move Hm].
    exists k, move. rewrite Hk. cbn [rbind]. unfold getitem.
    rewrite Hm, Hv. cbn [rbind].
    split; [reflexivity|]. split; [reflexivity|]. split; [reflexivity|].
    intros j w Hj Hw. specialize (Hfirst j w Hj Hw).
    assert (Spec.minimum scores <= w); [|lia].
    apply minimum_le. apply list_elem_of_In.
    eapply list_elem_of_lookup_2; exact Hw.
  - rewrite list_max_maximum by exact Hne. cbn [rbind].
    destruct (index_first _ _ (maximum_In scores Hne))
      as (k & Hk & Hv & Hfirst).
    assert (Hlt : (k < length moves)%nat)
      by (rewrite <- Hlen; eapply lookup_lt_Some; exact Hv).
    destruct (lookup_lt_is_Some_2 moves k Hlt) as [move Hm].
    exists k, move. rewrite Hk. cbn [rbind]. unfold getitem.
    rewrite Hm, Hv. cbn [rbind].
    split; [reflexivity|]. split; [reflexivity|]. split; [reflexivity|].
    intros j w Hj Hw. specialize (Hfirst j w Hj Hw).
    assert (w <= Spec.maximum scores); [|lia].
    apply maximum_ge. apply list_elem_of_In.
    eapply list_elem_of_lookup_2; exact Hw.
Qed.

(** ** The loop over the cells *)

Section Loop.

Variable child : list cell -> num -> num -> Z.
Variable b : list cell.
Variable player : mark.

Lemma loop_length (range : list nat) :
  forall alpha beta scores moves,
    length scores = length moves ->
    length (fst (Pure.loop child b player range alpha beta scores moves)) =
    length (snd (Pure.loop child b player range alpha beta scores moves)).
Proof.
  induction range as [|i rest IH]; intros alpha beta scores moves Hlen;
    cbn [Pure.loop]; [exact Hlen|].
  destruct (Spec.is_empty b i); [|now apply IH]. cbv zeta.
  assert (length (scores ++ [child (Spec.place b i player) alpha beta]) =
          length (moves ++ [(i + 1)%nat]))
    by (rewrite !length_app; cbn; lia).
  match goal with |- context [if ?c then _ else _] => destruct c end;
    [assumption|now apply IH].
Qed.

(** Scores and moves are only appended. *)
Lemma loop_extends (range : list nat) :
  forall alpha beta scores moves,
    exists scores' moves',
      Pure.loop child b player range alpha beta scores moves =
      (scores ++ scores', moves ++ moves').
Proof.
  induction range as [|i rest IH]; intros alpha beta scores moves;
    cbn [Pure.loop].
  - exists [], []. now rewrite !app_nil_r.
  - destruct (Spec.is_empty b i); [|apply IH]. cbv zeta.
    match goal with |- context [if ?c then _ else _] => destruct c end.
    + eexists [_], [_]. reflexivity.
    + match goal with
      | |- context [Pure.loop _ _ _ _ ?a ?be ?sc ?mv] =>
          destruct (IH a be sc mv) as (s' & m' & E)
      end.
      rewrite E. eexists (_ :: s'), (_ :: m').
      now rewrite <- !app_assoc.
Qed.

(** The first empty cell of the range is explored before any break. *)
Lemma loop_nonempty (range : list nat) :
  forall alpha beta scores moves,
    (exists i, In i range /\ Spec.is_empty b i = true) ->
    fst (Pure.loop child b player range alpha beta scores moves) <> [].
Proof.
  induction range as [|i rest IH]; intros alpha beta scores moves
    (i0 & Hin & He); [destruct Hin|].
  cbn [Pure.loop]. destruct (Spec.is_empty b i) eqn:E.
  - cbv zeta.
    match goal with
    | |- context [Pure.loop _ _ _ _ ?a ?be ?sc ?mv] =>
        destruct (loop_extends rest a be sc mv) as (s' & m' & E')
    end.
    match goal with |- context [if ?c then _ else _] => destruct c end.
    + cbn. intros H. now apply app_eq_nil in H as [_ ?].
    + rewrite E'. cbn. rewrite <- app_assoc. cbn.
      intros H. now apply app_eq_nil in H as [_ ?].
  - apply IH. exists i0. split; [|exact He].
    destruct Hin as [->|Hin]; [congruence|exact Hin].
Qed.

(** Every appended move is [i + 1] for an empty cell [i] of the range, and
    the appended moves are in the order of the range. *)
Lemma loop_moves (range : list nat) :
  forall alpha beta scores moves,
    exists idxs,
      snd (Pure.loop child b player range alpha beta scores moves) =
        moves ++ map (fun i => (i + 1)%nat) idxs /\
      sublist idxs range /\
      Forall (fun i => Spec.is_empty b i = true) idxs.
Proof.
  induction range as [|i rest IH]; intros alpha beta scores moves;
    cbn [Pure.loop].
  - exists []. cbn. rewrite app_nil_r. repeat split; constructor.
  - destruct (Spec.is_empty b i) eqn:E.
    + cbv zeta.
      match goal with |- context [if ?c then _ else _] => destruct c end.
      * exists [i]. cbn. split; [reflexivity|]. split.
        -- apply sublist_skip, sublist_nil_l.
        -- now constructor.
      * match goal with
        | |- context [Pure.loop _ _ _ _ ?a ?be ?sc ?mv] =>
            destruct (IH a be sc mv) as (idxs & E1 & E2 & E3)
        end.
        exists (i :: idxs). rewrite E1. cbn. rewrite <- app_assoc.
        split; [reflexivity|]. split; [now apply sublist_skip|].
        now constructor.
    + destruct (IH alpha beta scores moves) as (idxs & E1 & E2 & E3).
      exists idxs. split; [exact E1|]. split; [now apply sublist_cons|].
      exact E3.
Qed.

End Loop.

Lemma not_full_lookup (b : list cell) :
  Spec.full b = false ->
  exists i, (i < length b)%nat /\ Spec.is_empty b i = true.
Proof.
  unfold Spec.full, Spec.is_empty, Spec.at_.
  induction b as [|c b IH]; cbn; [discriminate|].
  destruct c; cbn.
  - intros _. exists 0%nat. split; [lia|reflexivity].
  - intros H. destruct (IH H) as (i & Hi & He).
    exists (S i). split; [lia|exact He].
Qed.

Lemma not_full_empty_cell (b : list cell) :
  length b = 9%nat -> Spec.full b = false ->
  exists i, In i (seq 0 9) /\ Spec.is_empty b i = true.
Proof.
  intros H Hf. destruct (not_full_lookup b Hf) as (i & Hi & He).
  exists i. split; [|exact He]. apply in_seq. lia.
Qed.

(** ** The program computes [Pure.search] *)

Lemma place_length (b : list cell) (i : nat) (player : mark) :
  length (Spec.place b i player) = length b.
Proof. apply length_insert. Qed.

Lemma explore_run call child (s : loc) (b : list cell) (player : mark)
  (range : list nat) :
  call_computes call child ->
  length b = 9%nat ->
  Forall (fun i => (i < 9)%nat) range ->
  forall h alpha beta scores moves,
    points_to h s b ->
    exists h',
      explore call s player range alpha beta scores moves h =
        Ok (Pure.loop child b player range alpha beta scores moves, h') /\
      extends h h'.
Proof.
  intros Hcall Hb. induction range as [|i rest IH];
    intros Hrange h alpha beta scores moves Hp.
  - exists h. split; [reflexivity|apply extends_refl].
  - apply Forall_cons in Hrange as [Hi Hrest]. specialize (IH Hrest).
    cbn [explore Pure.loop].
    rewrite (board_getitem_bind h s b) by (exact Hp || lia).
    unfold Spec.is_empty. destruct (Spec.at_ b i) eqn:Hc.
    + destruct (successor_run h s b i player Hp ltac:(lia))
        as (s' & h1 & Hsucc & Hext1 & Hp1 & _).
      rewrite (bind_Ok _ _ _ _ _ Hsucc).
      destruct (Hcall h1 s' (Spec.place b i player) alpha beta i Hp1)
        as (m & h2 & Hrec & Hext2);
        [rewrite place_length; exact Hb|].
      rewrite (bind_Ok _ _ _ _ _ Hrec). cbn [fst]. cbv zeta.
      assert (Hext : extends h h2) by (eapply extends_trans; eassumption).
      match goal with |- context [if ?c then _ else _] => destruct c end.
      * exists h2. split; [reflexivity|exact Hext].
      * match goal with
        | |- context [explore _ _ _ _ ?a ?be ?sc ?mv] =>
            destruct (IH h2 a be sc mv) as (h3 & Hrun & Hext3)
        end; [eapply points_to_extends; eassumption|].
        exists h3. split; [exact Hrun|].
        eapply extends_trans; eassumption.
    + apply IH. exact Hp.
Qed.

Lemma seq_0_9_bound : Forall (fun i => (i < 9)%nat) (seq 0 9).
Proof. apply Forall_forall. intros i Hi. apply elem_of_seq in Hi. lia. Qed.

Lemma explored_eq (b : list cell) (player : mark) (d : nat)
  (alpha beta : num) :
  Pure.explored b player d alpha beta =
  Pure.loop (fun b' a be => fst (Pure.search b' (opponent player) d a be))
    b player (seq 0 9) alpha beta [] [].
Proof. unfold Pure.explored. reflexivity. Qed.

Lemma search_recursive (b : list cell) (player : mark) (d : nat)
  (alpha beta : num) :
  Spec.terminal b = false ->
  Pure.search b player (S d) alpha beta =
  Pure.best player (fst (Pure.explored b player d alpha beta))
    (snd (Pure.explored b player d alpha beta)).
Proof.
  unfold Spec.terminal. intros H.
  apply orb_false_elim in H as [H Hf]. apply orb_false_elim in H as [Hx Ho].
  rewrite explored_eq. cbn [Pure.search]. unfold Pure.node.
  rewrite Hx, Ho, Hf. reflexivity.
Qed.

(** In the recursive case the choice is made on a non-empty list. *)
Lemma explored_select (b : list cell) (player : mark) (d : nat)
  (alpha beta : num) :
  length b = 9%nat -> Spec.full b = false ->
  select_best player (fst (Pure.explored b player d alpha beta))
    (snd (Pure.explored b player d alpha beta)) =
  Ok (Pure.best player (fst (Pure.explored b player d alpha beta))
        (snd (Pure.explored b player d alpha beta))).
Proof.
  intros Hb Hf. unfold Pure.best.
  destruct (select_best_first player
              (fst (Pure.explored b player d alpha beta))
              (snd (Pure.explored b player d alpha beta)))
    as (k & move & E & _).
  - apply loop_nonempty. now apply not_full_empty_cell.
  - now apply loop_length.
  - now rewrite E.
Qed.

Lemma search_terminal (b : list cell) (player : mark) (depth : nat)
  (alpha beta : num) :
  Spec.terminal b = true ->
  Pure.search b player depth alpha beta = (terminal_score b, None).
Proof.
  unfold Spec.terminal, terminal_score. intros H.
  destruct depth; cbn [Pure.search]; unfold Pure.node;
    destruct (Spec.winner b X), (Spec.winner b O), (Spec.full b);
    try reflexivity; discriminate H.
Qed.

Lemma search_cutoff (b : list cell) (player : mark) (alpha beta : num) :
  Spec.terminal b = false ->
  Pure.search b player 0 alpha beta = (Spec.score_at_cutoff b player, None).
Proof.
  unfold Spec.terminal. intros H.
  apply orb_false_elim in H as [H Hf]. apply orb_false_elim in H as [Hx Ho].
  cbn [Pure.search]. unfold Pure.node. now rewrite Hx, Ho, Hf.
Qed.

Lemma minimax_pruning_unfold (state : loc) (player : mark) (depth : nat)
  (alpha beta : num) (last_move : option nat) :
  minimax_pruning state player depth alpha beta last_move =
  (wx <- State_is_winner state X ;;
   if wx then _ <- trace_last_move last_move ;; ret (-100, None) else
   wo <- State_is_winner state O ;;
   if wo then _ <- trace_last_move last_move ;; ret (100, None) else
   full <- State_is_full state ;;
   if full then _ <- trace_last_move last_move ;; ret (0, None) else
   match depth with
   | 0%nat => cutoff_phase state player last_move
   | S depth' => recursive_phase state player depth' alpha beta
   end).
Proof. destruct depth; reflexivity. Qed.

Lemma trace_then_ret {A} (last_move : option nat) (v : A) (h : store) :
  (_ <- trace_last_move last_move ;; ret v) h =
  match last_move with
  | Some _ => Ok (v, h)
  | None => Raise TypeError
  end.
Proof. destruct last_move; reflexivity. Qed.

(** A terminal board: the trace line, then the terminal score. *)
Lemma minimax_pruning_terminal (h : store) (s : loc) (b : list cell)
  (player : mark) (depth : nat) (alpha beta : num) (last_move : option nat) :
  points_to h s b -> length b = 9%nat -> Spec.terminal b = true ->
  minimax_pruning s player depth alpha beta last_move h =
  match last_move with
  | Some _ => Ok ((terminal_score b, None), h)
  | None => Raise TypeError
  end.
Proof.
  intros Hp Hb Ht. rewrite minimax_pruning_unfold.
  unfold Spec.terminal in Ht. unfold terminal_score.
  rewrite (bind_Ok _ _ _ _ _ (State_is_winner_run h s b X Hp Hb)).
  destruct (Spec.winner b X); [apply trace_then_ret|].
  rewrite (bind_Ok _ _ _ _ _ (State_is_winner_run h s b O Hp Hb)).
  destruct (Spec.winner b O); [apply trace_then_ret|].
  rewrite (bind_Ok _ _ _ _ _ (State_is_full_run h s b Hp)).
  destruct (Spec.full b); [apply trace_then_ret|discriminate Ht].
Qed.

(** A board that is not terminal: the call is the cutoff or the recursive
    phase. *)
Lemma minimax_pruning_nonterminal (h : store) (s : loc) (b : list cell)
  (player : mark) (depth : nat) (alpha beta : num) (last_move : option nat) :
  points_to h s b -> length b = 9%nat -> Spec.terminal b = false ->
  minimax_pruning s player depth alpha beta last_move h =
  match depth with
  | 0%nat => cutoff_phase s player last_move h
  | S depth' => recursive_phase s player depth' alpha beta h
  end.
Proof.
  intros Hp Hb Ht. rewrite minimax_pruning_unfold.
  unfold Spec.terminal in Ht.
  apply orb_false_elim in Ht as [Ht Hf].
  apply orb_false_elim in Ht as [Hx Ho].
  rewrite (bind_Ok _ _ _ _ _ (State_is_winner_run h s b X Hp Hb)), Hx.
  rewrite (bind_Ok _ _ _ _ _ (State_is_winner_run h s b O Hp Hb)), Ho.
  rewrite (bind_Ok _ _ _ _ _ (State_is_full_run h s b Hp)), Hf.
  destruct depth; reflexivity.
Qed.

Lemma cutoff_phase_run (h : store) (s : loc) (b : list cell) (player : mark)
  (last_move : option nat) :
  points_to h s b -> length b = 9%nat ->
  cutoff_phase s player last_move h =
  match last_move with
  | Some _ => Ok ((Spec.score_at_cutoff b player, None), h)
  | None => Raise TypeError
  end.
Proof.
  intros Hp Hb. unfold cutoff_phase.
  destruct last_move as [i|]; [|reflexivity].
  unfold trace_last_move. rewrite (bind_Ok _ _ h h tt) by reflexivity.
  rewrite !(bind_Ok _ _ _ _ _
              (State_evaluate_run h s b (opponent player) Hp Hb)).
  reflexivity.
Qed.

Lemma recursive_phase_run (h : store) (s : loc) (b : list cell)
  (player : mark) (d : nat) (alpha beta : num) :
  call_computes
    (fun new_state alpha beta i =>
       minimax_pruning new_state (opponent player) d alpha beta (Some i))
    (fun b' a be => fst (Pure.search b' (opponent player) d a be)) ->
  points_to h s b -> length b = 9%nat -> Spec.full b = false ->
  exists h',
    explore
      (fun new_state alpha beta i =>
         minimax_pruning new_state (opponent player) d alpha beta (Some i))
      s player (seq 0 9) alpha beta [] [] h =
      Ok (Pure.explored b player d alpha beta, h') /\
    recursive_phase s player d alpha beta h =
      Ok (Pure.best player (fst (Pure.explored b player d alpha beta))
            (snd (Pure.explored b player d alpha beta)), h') /\
    extends h h'.
Proof.
  intros Hcall Hp Hb Hf.
  destruct (explore_run _ _ s b player (seq 0 9) Hcall Hb seq_0_9_bound
              h alpha beta [] [] Hp) as (h' & Hrun & Hext).
  rewrite <- explored_eq in Hrun.
  exists h'. split; [exact Hrun|]. split; [|exact Hext].
  unfold recursive_phase. rewrite (bind_Ok _ _ _ _ _ Hrun).
  unfold lift. now rewrite explored_select.
Qed.

Theorem minimax_pruning_run (depth : nat) :
  forall h s b player alpha beta last_move,
    points_to h s b -> length b = 9%nat ->
    if trace_fails b depth last_move
    then minimax_pruning s player depth alpha beta last_move h =
         Raise TypeError
    else exists h',
        minimax_pruning s player depth alpha beta last_move h =
          Ok (Pure.search b player depth alpha beta, h') /\
        extends h h'.
Proof.
  induction depth as [|d IH]; intros h s b player alpha beta last_move Hp Hb;
    destruct (Spec.terminal b) eqn:Ht.
  - rewrite (minimax_pruning_terminal h s b) by assumption.
    rewrite search_terminal by exact Ht. unfold trace_fails. rewrite Ht.
    destruct last_move; cbn [orb]; [|reflexivity].
    exists h. split; [reflexivity|apply extends_refl].
  - rewrite (minimax_pruning_nonterminal h s b) by assumption.
    rewrite (cutoff_phase_run h s b) by assumption.
    rewrite search_cutoff by exact Ht. unfold trace_fails. rewrite Ht.
    destruct last_move; cbn [orb Nat.eqb]; [|reflexivity].
    exists h. split; [reflexivity|apply extends_refl].
  - rewrite (minimax_pruning_terminal h s b) by assumption.
    rewrite search_terminal by exact Ht. unfold trace_fails. rewrite Ht.
    destruct last_move; cbn [orb]; [|reflexivity].
    exists h. split; [reflexivity|apply extends_refl].
  - rewrite (minimax_pruning_nonterminal h s b) by assumption.
    rewrite search_recursive by exact Ht.
    replace (trace_fails b (S d) last_move) with false
      by (unfold trace_fails; rewrite Ht; now destruct last_move).
    destruct (recursive_phase_run h s b player d alpha beta)
      as (h' & _ & Hrun & Hext); try assumption.
    + intros h0 s0 b0 a0 be0 i0 Hp0 Hb0.
      specialize (IH h0 s0 b0 (opponent player) a0 be0 (Some i0) Hp0 Hb0).
      cbn [trace_fails] in IH. destruct IH as (h1 & E & Hext).
      exists (snd (Pure.search b0 (opponent player) d a0 be0)), h1.
      split; [|exact Hext]. rewrite E. now destruct (Pure.search _ _ _ _ _).
    + unfold Spec.terminal in Ht. now apply orb_false_elim in Ht as [_ ?].
    + exists h'. split; [exact Hrun|exact Hext].
Qed.

(** ** Facts on the order of the extended integers *)

Lemma num_leb_nle (a b : num) : num_leb a b = true <-> nle a b.
Proof. unfold num_leb, nle. destruct (num_ltb b a); cbn; intuition congruence. Qed.

Lemma num_leb_nlt (a b : num) : num_leb a b = false <-> nlt b a.
Proof. unfold num_leb, nlt. destruct (num_ltb b a); cbn; intuition congruence. Qed.

Lemma num_max_assoc (a b c : num) :
  num_max (num_max a b) c = num_max a (num_max b c).
Proof. num_cases. Qed.

Lemma num_min_assoc (a b c : num) :
  num_min (num_min a b) c = num_min a (num_min b c).
Proof. num_cases. Qed.

Lemma num_max_comm (a b : num) : num_max a b = num_max b a.
Proof. num_cases. Qed.

Lemma num_min_comm (a b : num) : num_min a b = num_min b a.
Proof. num_cases. Qed.

Lemma num_max_NegInf (v : num) : num_max NegInf v = v.
Proof. now destruct v. Qed.

Lemma num_min_PosInf (v : num) : num_min PosInf v = v.
Proof. now destruct v. Qed.

Lemma nmax_list_snoc (l : list Z) (r : Z) :
  nmax_list (l ++ [r]) = num_max (nmax_list l) (Int r).
Proof.
  induction l as [|v l IH]; cbn.
  - reflexivity.
  - fold (nmax_list (l ++ [r])). fold (nmax_list l).
    rewrite IH. now rewrite num_max_assoc.
Qed.

Lemma nmin_list_snoc (l : list Z) (r : Z) :
  nmin_list (l ++ [r]) = num_min (nmin_list l) (Int r).
Proof.
  induction l as [|v l IH]; cbn.
  - reflexivity.
  - fold (nmin_list (l ++ [r])). fold (nmin_list l).
    rewrite IH. now rewrite num_min_assoc.
Qed.

Lemma nmax_list_maximum (l : list Z) :
  l <> [] -> nmax_list l = Int (Spec.maximum l).
Proof.
  destruct l as [|v vs]; [congruence|intros _].
  revert v. induction vs as [|w vs IH]; intros v.
  - reflexivity.
  - specialize (IH v). cbn in *.
    fold (nmax_list vs) in *. rewrite num_max_comm in IH.
    destruct (nmax_list vs) as [|z|]; cbn in *.
    + injection IH as <-. unfold num_max. cbn.
      destruct (Z.ltb_spec v w); f_equal; lia.
    + assert (Int (fold_right Z.max v vs) = Int (Z.max z v)) as [= ->].
      { rewrite <- IH. unfold num_max. cbn.
        destruct (Z.ltb_spec z v); f_equal; lia. }
      unfold num_max. cbn.
      repeat match goal with
             | |- context [Z.ltb ?p ?q] => destruct (Z.ltb_spec p q); cbn
             end; f_equal; lia.
    + discriminate IH.
Qed.

Lemma nmin_list_minimum (l : list Z) :
  l <> [] -> nmin_list l = Int (Spec.minimum l).
Proof.
  destruct l as [|v vs]; [congruence|intros _].
  revert v. induction vs as [|w vs IH]; intros v.
  - reflexivity.
  - specialize (IH v). cbn in *.
    fold (nmin_list vs) in *. rewrite num_min_comm in IH.
    destruct (nmin_list vs) as [|z|]; cbn in *.
    + discriminate IH.
    + assert (Int (fold_right Z.min v vs) = Int (Z.min z v)) as [= ->].
      { rewrite <- IH. unfold num_min. cbn.
        destruct (Z.ltb_spec v z); f_equal; lia. }
      unfold num_min. cbn.
      repeat match goal with
             | |- context [Z.ltb ?p ?q] => destruct (Z.ltb_spec p q); cbn
             end; f_equal; lia.
    + injection IH as <-. unfold num_min. cbn.
      destruct (Z.ltb_spec w v); f_equal; lia.
Qed.

(** ** Alpha-beta pruning against the full-width search *)

Lemma clamp_above (a b v : num) : nlt a b -> nle b v -> clamp a b v = b.
Proof. unfold clamp. num_cases. Qed.

Lemma clamp_inside (a b v : num) :
  nlt (num_max a v) b -> clamp a b v = num_max a v.
Proof. unfold clamp. num_cases. Qed.

Lemma clamp_min_inside (a be v : num) :
  nlt a (num_min be v) -> clamp a be v = num_min be v.
Proof. unfold clamp. num_cases. Qed.

Lemma clamp_below (a b v : num) : nlt a b -> nle v a -> clamp a b v = a.
Proof. unfold clamp. num_cases. Qed.

Lemma clamp_root (r : Z) : clamp NegInf PosInf (Int r) = Int r.
Proof. reflexivity. Qed.

Lemma nlt_max_l (a v b : num) : nlt (num_max a v) b -> nlt a b.
Proof. num_cases. Qed.

Lemma nlt_min_r (a v b : num) : nlt a (num_min b v) -> nlt a b.
Proof. num_cases. Qed.

Lemma nle_max_intro_r (b p q : num) : nle b q -> nle b (num_max p q).
Proof. num_cases. Qed.

Lemma nle_max_intro_l (b p q : num) : nle b p -> nle b (num_max p q).
Proof. num_cases. Qed.

Lemma nle_min_intro_r (a p q : num) : nle q a -> nle (num_min p q) a.
Proof. num_cases. Qed.

Lemma nle_min_intro_l (a p q : num) : nle p a -> nle (num_min p q) a.
Proof. num_cases. Qed.

Lemma agree_max_continue (al b : num) (r t : Z) :
  agree al b r t -> nlt (num_max al (Int r)) b ->
  num_max al (Int t) = num_max al (Int r).
Proof. unfold agree, clamp. num_cases. Qed.

Lemma agree_max_break (al b : num) (r t : Z) :
  nlt al b -> agree al b r t -> nle b (num_max al (Int r)) ->
  nle b (Int r) /\ nle b (Int t).
Proof. unfold agree, clamp. num_cases. Qed.

Lemma agree_min_continue (a be : num) (r t : Z) :
  agree a be r t -> nlt a (num_min be (Int r)) ->
  num_min be (Int t) = num_min be (Int r).
Proof. unfold agree, clamp. num_cases. Qed.

Lemma agree_min_break (a be : num) (r t : Z) :
  nlt a be -> agree a be r t -> nle (num_min be (Int r)) a ->
  nle (Int r) a /\ nle (Int t) a.
Proof. unfold agree, clamp. num_cases. Qed.

Section Window.

Variable child : list cell -> num -> num -> Z.
Variable value : list cell -> Z.
Variable b : list cell.
Variables alpha0 beta0 : num.

Lemma values_cons (player : mark) (i : nat) (rest : list nat) :
  values value b player (i :: rest) =
  if Spec.is_empty b i
  then value (Spec.place b i player) :: values value b player rest
  else values value b player rest.
Proof. unfold values. cbn. now destruct (Spec.is_empty b i). Qed.

Section Max.

Hypothesis child_agree :
  forall i alpha beta,
    Spec.is_empty b i = true -> nlt alpha beta ->
    agree alpha beta (child (Spec.place b i O) alpha beta)
      (value (Spec.place b i O)).

(** [seen] is the greatest full-width value of the successors already
    explored. *)
Lemma loop_max (range : list nat) :
  forall alpha scores moves seen,
    num_max alpha0 (nmax_list scores) = alpha ->
    num_max alpha0 seen = alpha ->
    nlt alpha beta0 ->
    clamp alpha0 beta0
      (nmax_list
         (fst (Pure.loop child b O range alpha beta0 scores moves))) =
    clamp alpha0 beta0 (num_max seen (nmax_list (values value b O range))).
Proof.
  induction range as [|i rest IH];
    intros alpha scores moves seen Hr Ht Hlt.
  - cbn [Pure.loop fst]. unfold values. cbn.
    replace (num_max seen NegInf) with seen by (clear; num_cases).
    rewrite !clamp_inside; [congruence|now rewrite Ht|now rewrite Hr].
  - cbn [Pure.loop]. rewrite values_cons.
    destruct (Spec.is_empty b i) eqn:He; [|now apply IH].
    cbv zeta. cbn [mark_eqb].
    pose proof (child_agree i alpha beta0 He Hlt) as Hs.
    set (r := child (Spec.place b i O) alpha beta0) in *.
    set (t := value (Spec.place b i O)) in *.
    cbn [nmax_list fold_right]. fold (nmax_list (values value b O rest)).
    destruct (num_leb beta0 (num_max alpha (Int r))) eqn:Hbreak.
    + apply num_leb_nle in Hbreak. cbn [fst]. rewrite nmax_list_snoc.
      destruct (agree_max_break _ _ _ _ Hlt Hs Hbreak) as [Hrb Htb].
      assert (Hw : nlt alpha0 beta0)
        by (subst alpha; eapply nlt_max_l; exact Hlt).
      rewrite !clamp_above; try reflexivity; try exact Hw.
      * apply nle_max_intro_r, nle_max_intro_l. exact Htb.
      * apply nle_max_intro_r. exact Hrb.
    + apply num_leb_nlt in Hbreak. rewrite <- num_max_assoc.
      apply IH.
      * rewrite nmax_list_snoc, <- num_max_assoc. now rewrite Hr.
      * rewrite <- num_max_assoc, Ht.
        now apply agree_max_continue with (b := beta0).
      * exact Hbreak.
Qed.

End Max.

Section Min.

Hypothesis child_agree :
  forall i alpha beta,
    Spec.is_empty b i = true -> nlt alpha beta ->
    agree alpha beta (child (Spec.place b i X) alpha beta)
      (value (Spec.place b i X)).

Lemma loop_min (range : list nat) :
  forall beta scores moves seen,
    num_min beta0 (nmin_list scores) = beta ->
    num_min beta0 seen = beta ->
    nlt alpha0 beta ->
    clamp alpha0 beta0
      (nmin_list
         (fst (Pure.loop child b X range alpha0 beta scores moves))) =
    clamp alpha0 beta0 (num_min seen (nmin_list (values value b X range))).
Proof.
  induction range as [|i rest IH];
    intros beta scores moves seen Hr Ht Hlt.
  - cbn [Pure.loop fst]. unfold values. cbn.
    replace (num_min seen PosInf) with seen by (clear; num_cases).
    rewrite !clamp_min_inside; [congruence|now rewrite Ht|now rewrite Hr].
  - cbn [Pure.loop]. rewrite values_cons.
    destruct (Spec.is_empty b i) eqn:He; [|now apply IH].
    cbv zeta. cbn [mark_eqb].
    pose proof (child_agree i alpha0 beta He Hlt) as Hs.
    set (r := child (Spec.place b i X) alpha0 beta) in *.
    set (t := value (Spec.place b i X)) in *.
    cbn [nmin_list fold_right]. fold (nmin_list (values value b X rest)).
    destruct (num_leb (num_min beta (Int r)) alpha0) eqn:Hbreak.
    + apply num_leb_nle in Hbreak. cbn [fst]. rewrite nmin_list_snoc.
      destruct (agree_min_break _ _ _ _ Hlt Hs Hbreak) as [Hrb Htb].
      assert (Hw : nlt alpha0 beta0)
        by (subst beta; eapply nlt_min_r; exact Hlt).
      rewrite !clamp_below; try reflexivity; try exact Hw.
      * apply nle_min_intro_r, nle_min_intro_l. exact Htb.
      * apply nle_min_intro_r. exact Hrb.
    + apply num_leb_nlt in Hbreak. rewrite <- num_min_assoc.
      apply IH.
      * rewrite nmin_list_snoc, <- num_min_assoc. now rewrite Hr.
      * rewrite <- num_min_assoc, Ht.
        now apply agree_min_continue with (a := alpha0).
      * exact Hbreak.
Qed.

End Min.

End Window.

Lemma minimax_full_terminal (b : list cell) (player : mark) (depth : nat) :
  Spec.terminal b = true ->
  Spec.minimax_full b player depth = terminal_score b.
Proof.
  unfold Spec.terminal, terminal_score. intros H.
  destruct depth; cbn [Spec.minimax_full];
    destruct (Spec.winner b X), (Spec.winner b O), (Spec.full b);
    try reflexivity; discriminate H.
Qed.

Lemma minimax_full_cutoff (b : list cell) (player : mark) :
  Spec.terminal b = false ->
  Spec.minimax_full b player 0 = Spec.score_at_cutoff b player.
Proof.
  unfold Spec.terminal. intros H.
  apply orb_false_elim in H as [H Hf]. apply orb_false_elim in H as [Hx Ho].
  cbn [Spec.minimax_full]. now rewrite Hx, Ho, Hf.
Qed.

Lemma minimax_full_recursive (b : list cell) (player : mark) (d : nat) :
  Spec.terminal b = false ->
  Spec.minimax_full b player (S d) =
  match player with
  | X =>
      Spec.minimum
        (values (fun b' => Spec.minimax_full b' (opponent player) d) b
           player (seq 0 9))
  | O =>
      Spec.maximum
        (values (fun b' => Spec.minimax_full b' (opponent player) d) b
           player (seq 0 9))
  end.
Proof.
  unfold Spec.terminal. intros H.
  apply orb_false_elim in H as [H Hf]. apply orb_false_elim in H as [Hx Ho].
  cbn [Spec.minimax_full]. rewrite Hx, Ho, Hf.
  unfold values, Spec.legal_moves. reflexivity.
Qed.

Lemma best_score (player : mark) (scores : list Z) (moves : list nat) :
  scores <> [] -> length scores = length moves ->
  fst (Pure.best player scores moves) =
  match player with
  | X => Spec.minimum scores
  | O => Spec.maximum scores
  end.
Proof.
  intros Hne Hlen. unfold Pure.best.
  destruct (select_best_first player scores moves Hne Hlen)
    as (k & move & E & _).
  now rewrite E.
Qed.

Lemma values_nonempty (value : list cell -> Z) (b : list cell)
  (player : mark) (range : list nat) :
  (exists i, In i range /\ Spec.is_empty b i = true) ->
  values value b player range <> [].
Proof.
  intros (i & Hin & He). unfold values.
  assert (In i (List.filter (Spec.is_empty b) range))
    by (apply filter_In; now split).
  destruct (List.filter (Spec.is_empty b) range); [contradiction|].
  discriminate.
Qed.

Lemma explored_nonempty (b : list cell) (player : mark) (d : nat)
  (alpha beta : num) :
  length b = 9%nat -> Spec.terminal b = false ->
  fst (Pure.explored b player d alpha beta) <> [] /\
  length (fst (Pure.explored b player d alpha beta)) =
  length (snd (Pure.explored b player d alpha beta)).
Proof.
  intros Hb Ht. unfold Spec.terminal in Ht.
  apply orb_false_elim in Ht as [_ Hf]. rewrite explored_eq. split.
  - apply loop_nonempty. now apply not_full_empty_cell.
  - now apply loop_length.
Qed.

(** The score of the pruned search and the full-width value agree through
    the window of the call. *)
Theorem search_agree (depth : nat) :
  forall b player alpha beta,
    length b = 9%nat -> nlt alpha beta ->
    agree alpha beta (fst (Pure.search b player depth alpha beta))
      (Spec.minimax_full b player depth).
Proof.
  induction depth as [|d IH]; intros b player alpha beta Hb Hw;
    destruct (Spec.terminal b) eqn:Ht.
  - rewrite search_terminal, minimax_full_terminal by exact Ht. reflexivity.
  - rewrite search_cutoff, minimax_full_cutoff by exact Ht. reflexivity.
  - rewrite search_terminal, minimax_full_terminal by exact Ht. reflexivity.
  - rewrite search_recursive, minimax_full_recursive by exact Ht.
    destruct (explored_nonempty b player d alpha beta Hb Ht) as [Hne Hlen].
    rewrite best_score by assumption.
    assert (Hcells : exists i, In i (seq 0 9) /\ Spec.is_empty b i = true).
    { apply not_full_empty_cell; [exact Hb|].
      unfold Spec.terminal in Ht. now apply orb_false_elim in Ht as [_ ?]. }
    unfold agree. rewrite explored_eq in *.
    destruct player; cbn [opponent].
    + rewrite <- nmin_list_minimum by exact Hne.
      rewrite <- (nmin_list_minimum (values _ _ _ _))
        by (now apply values_nonempty).
      rewrite (loop_min _ (fun b' => Spec.minimax_full b' O d) b alpha beta)
        with (seen := PosInf).
      * f_equal. apply num_min_PosInf.
      * intros i a be He Hlt. apply IH; [|exact Hlt].
        now rewrite place_length.
      * cbn. clear. num_cases.
      * clear. num_cases.
      * exact Hw.
    + rewrite <- nmax_list_maximum by exact Hne.
      rewrite <- (nmax_list_maximum (values _ _ _ _))
        by (now apply values_nonempty).
      rewrite (loop_max _ (fun b' => Spec.minimax_full b' X d) b alpha beta)
        with (seen := NegInf).
      * f_equal. apply num_max_NegInf.
      * intros i a be He Hlt. apply IH; [|exact Hlt].
        now rewrite place_length.
      * cbn. clear. num_cases.
      * clear. num_cases.
      * exact Hw.
Qed.

(** At the root window the pruned score is the full-width value. *)
Corollary search_root (b : list cell) (player : mark) (depth : nat) :
  length b = 9%nat ->
  fst (Pure.search b player depth NegInf PosInf) =
  Spec.minimax_full b player depth.
Proof.
  intros Hb.
  pose proof (search_agree depth b player NegInf PosInf Hb eq_refl) as H.
  unfold agree in H. rewrite !clamp_root in H. now injection H.
Qed.

(** ** Calls of [minimax_pruning] *)

Lemma call_computes_minimax (player : mark) (d : nat) :
  call_computes
    (fun new_state alpha beta i =>
       minimax_pruning new_state player d alpha beta (Some i))
    (fun b' a be => fst (Pure.search b' player d a be)).
Proof.
  intros h s b alpha beta i Hp Hb.
  pose proof (minimax_pruning_run d h s b player alpha beta (Some i) Hp Hb)
    as H.
  cbn [trace_fails] in H. destruct H as (h' & E & Hext).
  exists (snd (Pure.search b player d alpha beta)), h'.
  split; [|exact Hext]. rewrite E. now destruct (Pure.search _ _ _ _ _).
Qed.

(** The recursive phase on a board that is not terminal: the loop returns
    the explored children, the call returns the choice among them. *)
Lemma minimax_pruning_recursive (h : store) (s : loc) (b : list cell)
  (player : mark) (d : nat) (alpha beta : num) (last_move : option nat) :
  points_to h s b -> length b = 9%nat -> Spec.terminal b = false ->
  exists h',
    explore
      (fun new_state alpha beta i =>
         minimax_pruning new_state (opponent player) d alpha beta (Some i))
      s player (seq 0 9) alpha beta [] [] h =
      Ok (Pure.explored b player d alpha beta, h') /\
    minimax_pruning s player (S d) alpha beta last_move h =
      Ok (Pure.best player (fst (Pure.explored b player d alpha beta))
            (snd (Pure.explored b player d alpha beta)), h') /\
    extends h h'.
Proof.
  intros Hp Hb Ht.
  rewrite (minimax_pruning_nonterminal h s b) by assumption.
  apply recursive_phase_run; try assumption.
  - apply call_computes_minimax.
  - unfold Spec.terminal in Ht. now apply orb_false_elim in Ht as [_ ?].
Qed.

(** Indices taken in order from [seq n len] are increasing. *)
Lemma sublist_seq_increasing (len : nat) :
  forall n idxs,
    sublist idxs (seq n len) ->
    forall j k vj vk,
      (j < k)%nat -> idxs !! j = Some vj -> idxs !! k = Some vk ->
      (vj < vk)%nat.
Proof.
  induction len as [|len IH]; intros n idxs Hsub j k vj vk Hjk Hj Hk.
  - apply sublist_nil_r in Hsub. subst idxs. discriminate Hj.
  - cbn [seq] in Hsub. apply sublist_cons_r in Hsub as [Hsub|(l' & -> & Hsub)].
    + eapply IH; eassumption.
    + destruct j as [|j]; destruct k as [|k]; try lia; cbn in Hj, Hk.
      * injection Hj as <-.
        apply list_elem_of_lookup_2 in Hk.
        apply (sublist_subseteq _ _ Hsub) in Hk.
        apply elem_of_seq in Hk. lia.
      * eapply (IH (S n) l' Hsub j k); [lia|eassumption..].
Qed.

(** The moves of the explored children: cell numbers [i + 1] of empty cells
    [i] below 9, in increasing order. *)
Lemma explored_moves (b : list cell) (player : mark) (d : nat)
  (alpha beta : num) :
  (forall k m, snd (Pure.explored b player d alpha beta) !! k = Some m ->
     (1 <= m <= 9)%nat /\ Spec.is_empty b (m - 1) = true) /\
  (forall j k mj mk,
     (j < k)%nat ->
     snd (Pure.explored b player d alpha beta) !! j = Some mj ->
     snd (Pure.explored b player d alpha beta) !! k = Some mk ->
     (mj < mk)%nat).
Proof.
  rewrite explored_eq.
  destruct (loop_moves
              (fun b' a be => fst (Pure.search b' (opponent player) d a be))
              b player (seq 0 9) alpha beta [] [])
    as (idxs & E & Hsub & Hempty).
  rewrite E. cbn [app]. split.
  - intros k m Hk. rewrite list_lookup_fmap in Hk.
    destruct (idxs !! k) as [i|] eqn:Hi; [|discriminate Hk].
    injection Hk as <-.
    assert (Hin : i ∈ seq 0 9).
    { eapply sublist_subseteq; [exact Hsub|].
      eapply list_elem_of_lookup_2; exact Hi. }
    apply elem_of_seq in Hin.
    replace (i + 1 - 1)%nat with i by lia. split; [lia|].
    eapply Forall_lookup_1 in Hempty; [exact Hempty|exact Hi].
  - intros j k mj mk Hjk Hj Hk. rewrite list_lookup_fmap in Hj, Hk.
    destruct (idxs !! j) as [ij|] eqn:Hij; [|discriminate Hj].
    destruct (idxs !! k) as [ik|] eqn:Hik; [|discriminate Hk].
    injection Hj as <-. injection Hk as <-.
    pose proof (sublist_seq_increasing 9 0 idxs Hsub j k ij ik Hjk Hij Hik).
    lia.
Qed.

Lemma is_empty_lookup (b : list cell) (i : nat) :
  (i < length b)%nat -> Spec.is_empty b i = true -> b !! i = Some Empty.
Proof.
  intros Hi He. unfold Spec.is_empty, Spec.at_ in He.
  destruct (lookup_lt_is_Some_2 b i Hi) as [c Hc].
  rewrite (nth_lookup_Some b i Empty c Hc) in He.
  destruct c; [exact Hc|discriminate He].
Qed.

(** ** Bounds on the scores *)

Lemma static_eval_bounds (b : list cell) (symbol : mark) :
  length b = 9%nat -> -24 <= Spec.static_eval b symbol <= 24.
Proof.
  intros H. board9 b H.
  unfold Spec.static_eval, Spec.occupancy, Spec.sign.
  cbn -[cell_is Z.mul Z.add].
  repeat match goal with
         | |- context [cell_is ?c symbol] =>
             destruct (cell_is c symbol)
         end; destruct symbol; lia.
Qed.

Lemma terminal_score_bounds (b : list cell) : -100 <= terminal_score b <= 100.
Proof.
  unfold terminal_score.
  destruct (Spec.winner b X), (Spec.winner b O); lia.
Qed.

Lemma loop_scores_Forall (P : Z -> Prop)
  (child : list cell -> num -> num -> Z) (b : list cell) (player : mark)
  (range : list nat) :
  (forall i alpha beta, P (child (Spec.place b i player) alpha beta)) ->
  forall alpha beta scores moves,
    Forall P scores ->
    Forall P (fst (Pure.loop child b player range alpha beta scores moves)).
Proof.
  intros Hchild. induction range as [|i rest IH];
    intros alpha beta scores moves Hs; cbn [Pure.loop]; [exact Hs|].
  destruct (Spec.is_empty b i); [|now apply IH]. cbv zeta.
  assert (Forall P (scores ++ [child (Spec.place b i player) alpha beta]))
    by (apply Forall_app; split; [exact Hs|]; constructor;
        [apply Hchild|constructor]).
  match goal with |- context [if ?c then _ else _] => destruct c end;
    [assumption|now apply IH].
Qed.

Lemma search_bounds (depth : nat) :
  forall b player alpha beta,
    length b = 9%nat ->
    -100 <= fst (Pure.search b player depth alpha beta) <= 100.
Proof.
  induction depth as [|d IH]; intros b player alpha beta Hb;
    destruct (Spec.terminal b) eqn:Ht.
  - rewrite search_terminal by exact Ht. apply terminal_score_bounds.
  - rewrite search_cutoff by exact Ht. cbn [fst].
    pose proof (static_eval_bounds b (opponent player) Hb).
    unfold Spec.score_at_cutoff. lia.
  - rewrite search_terminal by exact Ht. apply terminal_score_bounds.
  - rewrite search_recursive by exact Ht.
    destruct (explored_nonempty b player d alpha beta Hb Ht) as [Hne Hlen].
    rewrite best_score by assumption.
    assert (Hall : Forall (fun v => -100 <= v <= 100)
                     (fst (Pure.explored b player d alpha beta))).
    { rewrite explored_eq. apply loop_scores_Forall; [|constructor].
      intros i a be. apply IH. now rewrite place_length. }
    rewrite List.Forall_forall in Hall.
    destruct player; apply Hall; [now apply minimum_In|now apply maximum_In].
Qed.

(** ** The recursive case *)

Lemma is_terminal_false (b : list cell) :
  length b = 9%nat -> is_terminal b = Ok false -> Spec.terminal b = false.
Proof. intros Hb H. rewrite is_terminal_spec in H by exact Hb. congruence. Qed.

Lemma is_terminal_true (b : list cell) :
  length b = 9%nat -> is_terminal b = Ok true -> Spec.terminal b = true.
Proof. intros Hb H. rewrite is_terminal_spec in H by exact Hb. congruence. Qed.

(** Everything the recursive phase does on a board that is not terminal. *)
Lemma recursive_choice (h : store) (s : loc) (b : list cell) (player : mark)
  (d : nat) (alpha beta : num) (last_move : option nat) :
  points_to h s b -> length b = 9%nat -> Spec.terminal b = false ->
  exists scores moves h' k score move,
    explore
      (fun new_state alpha beta i =>
         minimax_pruning new_state (opponent player) d alpha beta (Some i))
      s player (seq 0 9) alpha beta [] [] h = Ok ((scores, moves), h') /\
    minimax_pruning s player (S d) alpha beta last_move h =
      Ok ((score, Some move), h') /\
    select_best player scores moves = Ok (score, Some move) /\
    extends h h' /\
    scores <> [] /\
    length scores = length moves /\
    scores !! k = Some score /\
    moves !! k = Some move /\
    (forall j w, scores !! j = Some w ->
       match player with X => score <= w | O => w <= score end) /\
    (forall j w, (j < k)%nat -> scores !! j = Some w ->
       match player with X => score < w | O => w < score end) /\
    (forall j m, moves !! j = Some m ->
       (1 <= m <= 9)%nat /\ b !! (m - 1)%nat = Some Empty) /\
    (forall i j mi mj, (i < j)%nat ->
       moves !! i = Some mi -> moves !! j = Some mj -> (mi < mj)%nat).
Proof.
  intros Hp Hb Ht.
  destruct (minimax_pruning_recursive h s b player d alpha beta last_move
              Hp Hb Ht) as (h' & Hloop & Hcall & Hext).
  destruct (explored_nonempty b player d alpha beta Hb Ht) as [Hne Hlen].
  destruct (explored_moves b player d alpha beta) as [Hcells Hincr].
  destruct (Pure.explored b player d alpha beta) as [scores moves] eqn:Ex.
  cbn [fst snd] in *.
  destruct (select_best_first player scores moves Hne Hlen)
    as (k & move & Hsel & Hm & Hs & Hfirst).
  unfold Pure.best in Hcall. rewrite Hsel in Hcall.
  exists scores, moves, h', k.
  exists (match player with
          | X => Spec.minimum scores
          | O => Spec.maximum scores
          end), move.
  split; [exact Hloop|]. split; [exact Hcall|]. split; [exact Hsel|].
  split; [exact Hext|]. split; [exact Hne|]. split; [exact Hlen|].
  split; [exact Hs|]. split; [exact Hm|].
  split; [|split; [|split; [|exact Hincr]]].
  - intros j w Hw. apply list_elem_of_lookup_2, list_elem_of_In in Hw.
    destruct player; [now apply minimum_le|now apply maximum_ge].
  - intros j w Hj Hw. specialize (Hfirst j w Hj Hw). now destruct player.
  - intros j m Hj. destruct (Hcells j m Hj) as [Hr He].
    split; [exact Hr|]. apply is_empty_lookup; [lia|exact He].
Qed.

(** With a score 100 at the head and no greater score, O keeps the first
    move. *)
Lemma best_O_head (scores : list Z) (m : nat) (moves : list nat) :
  Forall (fun v => v <= 100) scores -> length scores = length moves ->
  Pure.best O (100 :: scores) (m :: moves) = (100, Some m).
Proof.
  intros Hall Hlen. unfold Pure.best.
  destruct (select_best_first O (100 :: scores) (m :: moves))
    as (k & move & E & Hm & Hs & Hfirst);
    [discriminate|cbn; lia|].
  assert (Hmax : Spec.maximum (100 :: scores) = 100).
  { assert (100 <= Spec.maximum (100 :: scores))
      by (apply maximum_ge; now left).
    assert (In (Spec.maximum (100 :: scores)) (100 :: scores))
      by (now apply maximum_In).
    destruct H0 as [<-|Hin]; [reflexivity|].
    rewrite List.Forall_forall in Hall. specialize (Hall _ Hin). lia. }
  rewrite E, Hmax. destruct k as [|k].
  - cbn in Hm. now injection Hm as <-.
  - specialize (Hfirst 0%nat 100 ltac:(lia) eq_refl). lia.
Qed.

Lemma loop_skip (child : list cell -> num -> num -> Z) (b : list cell)
  (player : mark) (i : nat) (rest : list nat) (alpha beta : num)
  (scores : list Z) (moves : list nat) :
  Spec.is_empty b i = false ->
  Pure.loop child b player (i :: rest) alpha beta scores moves =
  Pure.loop child b player rest alpha beta scores moves.
Proof. intros H. cbn [Pure.loop]. now rewrite H. Qed.

(** A first explored child worth 100 for O, at the root window. *)
Lemma loop_O_first_100 (child : list cell -> num -> num -> Z) (b : list cell)
  (i : nat) (rest : list nat) :
  Spec.is_empty b i = true ->
  child (Spec.place b i O) NegInf PosInf = 100 ->
  (forall j alpha beta, child (Spec.place b j O) alpha beta <= 100) ->
  exists scores moves,
    Pure.loop child b O (i :: rest) NegInf PosInf [] [] =
      (100 :: scores, (i + 1)%nat :: moves) /\
    Forall (fun v => v <= 100) scores /\
    length scores = length moves.
Proof.
  intros He Hc Hall. cbn [Pure.loop]. rewrite He. cbv zeta.
  rewrite Hc. cbn [mark_eqb app].
  change (num_leb PosInf (num_max NegInf (Int 100))) with false. cbv iota.
  destruct (loop_extends child b O rest (num_max NegInf (Int 100)) PosInf
              [100] [(i + 1)%nat]) as (scores & moves & E).
  exists scores, moves. split; [exact E|].
  pose proof (loop_scores_Forall (fun v => v <= 100) child b O rest Hall
                (num_max NegInf (Int 100)) PosInf [100] [(i + 1)%nat]) as HF.
  pose proof (loop_length child b O rest (num_max NegInf (Int 100)) PosInf
                [100] [(i + 1)%nat] eq_refl) as HL.
  rewrite E in HF, HL. cbn [fst snd app] in HF, HL. split.
  - assert (Forall (fun v => v <= 100) (100 :: scores))
      by (apply HF; repeat constructor; lia).
    now apply Forall_cons in H as [_ ?].
  - cbn in HL. lia.
Qed.

(** * The claims *)

(** C1. For every board, mover and depth, a call with the root window
    [alpha = -inf], [beta = +inf] that returns a score returns the score of
    the unpruned full-width search [Spec.minimax_full]; the call returns
    unless it raises on the trace line ([last_move] is [None] on a terminal
    board or at depth 0), and then it returns no score at all. *)
Theorem pruning_preserves_root_score (h : store) (s : loc) (b : list cell)
  (player : mark) (depth : nat) (last_move : option nat) :
  points_to h s b -> length b = 9%nat ->
  (trace_fails b depth last_move = false ->
   exists move h',
     minimax_pruning s player depth NegInf PosInf last_move h =
     Ok ((Spec.minimax_full b player depth, move), h')) /\
  (trace_fails b depth last_move = true ->
   minimax_pruning s player depth NegInf PosInf last_move h =
   Raise TypeError) /\
  (forall score move h',
     minimax_pruning s player depth NegInf PosInf last_move h =
     Ok ((score, move), h') ->
     score = Spec.minimax_full b player depth).
Proof.
  intros Hp Hb.
  pose proof (minimax_pruning_run depth h s b player NegInf PosInf last_move
                Hp Hb) as H.
  pose proof (search_root b player depth Hb) as Hroot.
  destruct (trace_fails b depth last_move).
  - split; [discriminate|]. split; [intros _; exact H|].
    intros score move h' E. rewrite H in E. discriminate E.
  - destruct H as (h' & E & _).
    destruct (Pure.search b player depth NegInf PosInf) as [sc mv] eqn:Es.
    cbn [fst] in Hroot. subst sc.
    split; [intros _; exists mv, h'; exact E|].
    split; [discriminate|].
    intros score move h'' E'. rewrite E in E'. now injection E' as <- _ _.
Qed.

Lemma pruning_preserves_root_score_witness :
  points_to (store_of board_win_in_one) 0%nat board_win_in_one /\
  length board_win_in_one = 9%nat /\
  (trace_fails board_win_in_one 2 None = false ->
   exists move h',
     minimax_pruning 0%nat O 2 NegInf PosInf None
       (store_of board_win_in_one) =
     Ok ((Spec.minimax_full board_win_in_one O 2, move), h')) /\
  (trace_fails board_win_in_one 2 None = true ->
   minimax_pruning 0%nat O 2 NegInf PosInf None (store_of board_win_in_one) =
   Raise TypeError) /\
  (forall score move h',
     minimax_pruning 0%nat O 2 NegInf PosInf None
       (store_of board_win_in_one) =
     Ok ((score, move), h') ->
     score = Spec.minimax_full board_win_in_one O 2).
Proof.
  split; [apply points_to_store_of|]. split; [reflexivity|].
  apply (pruning_preserves_root_score (store_of board_win_in_one) 0%nat
           board_win_in_one O 2 None);
    [apply points_to_store_of|reflexivity].
Defined.

(** C2 (the program departs from the claim).  On a board where X has three
    in a row, where O has, or that is full without a winner, the call with
    the default [last_move = None] raises [TypeError] on the trace line
    instead of returning [-100], [100] or [0] with move [None]; the same
    boards give these results when [last_move] is a cell index. *)
Theorem terminal_scoring_default_call_raises :
  run board_X_won O 1 NegInf PosInf None = Raise TypeError /\
  run board_O_won X 1 NegInf PosInf None = Raise TypeError /\
  run board_draw O 1 NegInf PosInf None = Raise TypeError /\
  run board_X_won O 1 NegInf PosInf (Some 2%nat) = Ok (-100, None) /\
  run board_O_won X 1 NegInf PosInf (Some 2%nat) = Ok (100, None) /\
  run board_draw O 1 NegInf PosInf (Some 8%nat) = Ok (0, None).
Proof. repeat split; vm_compute; reflexivity. Qed.

(** C3 (the program departs from the claim).  At depth 0 on a board that is
    not terminal, the call with the default [last_move = None] raises
    [TypeError] on the trace line instead of returning the static evaluation
    of the mover's opponent; with a cell index as [last_move] it returns that
    evaluation and move [None]. *)
Theorem depth_zero_default_call_raises :
  is_terminal board_win_in_one = Ok false /\
  run board_win_in_one O 0 NegInf PosInf None = Raise TypeError /\
  run board_win_in_one X 0 NegInf PosInf None = Raise TypeError /\
  evaluate board_win_in_one X = Ok (-6) /\
  evaluate board_win_in_one O = Ok 5 /\
  run board_win_in_one O 0 NegInf PosInf (Some 4%nat) = Ok (-6, None) /\
  run board_win_in_one X 0 NegInf PosInf (Some 1%nat) = Ok (5, None).
Proof. repeat split; vm_compute; reflexivity. Qed.

(** C4. [evaluate(symbol)] is the sum, over the cells occupied by [symbol],
    of the weights 4 (index 4), 3 (indices 0, 2, 6, 8) and 2 (indices 1, 3,
    5, 7), multiplied by -1 for X and by +1 for O. *)
Theorem evaluate_weighted_sum (h : store) (s : loc) (b : list cell)
  (symbol : mark) :
  points_to h s b -> length b = 9%nat ->
  evaluate b symbol = Ok (Spec.sign symbol * Spec.occupancy b symbol) /\
  State_evaluate s symbol h =
  Ok (Spec.sign symbol * Spec.occupancy b symbol, h).
Proof.
  intros Hp Hb. split.
  - now rewrite evaluate_spec.
  - now rewrite (State_evaluate_run h s b).
Qed.

Lemma evaluate_weighted_sum_witness :
  points_to (store_of board_last_cell) 0%nat board_last_cell /\
  length board_last_cell = 9%nat /\
  evaluate board_last_cell X =
    Ok (Spec.sign X * Spec.occupancy board_last_cell X) /\
  State_evaluate 0%nat X (store_of board_last_cell) =
    Ok (Spec.sign X * Spec.occupancy board_last_cell X,
        store_of board_last_cell).
Proof.
  split; [apply points_to_store_of|]. split; [reflexivity|].
  apply (evaluate_weighted_sum (store_of board_last_cell) 0%nat
           board_last_cell X);
    [apply points_to_store_of|reflexivity].
Defined.

(** C5, as stated, fails: the returned move is [i + 1], so on a board whose
    only empty cell has index 8 the call returns 9, which is not a cell
    index in 0..8. *)
Lemma returned_move_not_cell_index :
  is_terminal board_last_cell = Ok false /\
  board_last_cell !! 8%nat = Some Empty /\
  run board_last_cell O 1 NegInf PosInf None = Ok (0, Some 9%nat) /\
  ~ (exists score m,
       run board_last_cell O 1 NegInf PosInf None = Ok (score, Some m) /\
       (m <= 8)%nat /\ board_last_cell !! m = Some Empty).
Proof.
  assert (E : run board_last_cell O 1 NegInf PosInf None = Ok (0, Some 9%nat))
    by (vm_compute; reflexivity).
  split; [vm_compute; reflexivity|]. split; [reflexivity|].
  split; [exact E|].
  intros (score & m & Hrun & Hm & _). rewrite E in Hrun.
  injection Hrun as _ <-. lia.
Qed.

(** C5, amended.  With depth > 0 on a board that is not terminal, the call
    returns a move [m] in 1..9, the number of the empty cell of index
    [m - 1] (the numbering of [Game.make_move], which writes
    [board[move - 1]]); on a terminal board or at depth 0, a call whose
    [last_move] is a cell index returns move [None]. *)
Theorem returned_move_is_cell_number (h : store) (s : loc) (b : list cell)
  (player : mark) (alpha beta : num) :
  points_to h s b -> length b = 9%nat ->
  (is_terminal b = Ok false ->
   forall d last_move,
   exists score m h',
     minimax_pruning s player (S d) alpha beta last_move h =
       Ok ((score, Some m), h') /\
     (1 <= m <= 9)%nat /\ b !! (m - 1)%nat = Some Empty) /\
  (forall depth i,
     is_terminal b = Ok true \/ depth = 0%nat ->
     exists score,
       minimax_pruning s player depth alpha beta (Some i) h =
       Ok ((score, None), h)).
Proof.
  intros Hp Hb. split.
  - intros Ht d last_move. apply is_terminal_false in Ht; [|exact Hb].
    destruct (recursive_choice h s b player d alpha beta last_move Hp Hb Ht)
      as (scores & moves & h' & k & score & move & _ & Hcall & _ & _ & _ & _
          & _ & Hm & _ & _ & Hcells & _).
    exists score, move, h'. split; [exact Hcall|]. now apply (Hcells k).
  - intros depth i Hcase. destruct (Spec.terminal b) eqn:Ht.
    + exists (terminal_score b).
      now rewrite (minimax_pruning_terminal h s b).
    + destruct Hcase as [Hterm| ->].
      * apply is_terminal_true in Hterm; [congruence|exact Hb].
      * exists (Spec.score_at_cutoff b player).
        rewrite (minimax_pruning_nonterminal h s b) by assumption.
        now rewrite (cutoff_phase_run h s b).
Qed.

Lemma returned_move_is_cell_number_witness :
  points_to (store_of board_last_cell) 0%nat board_last_cell /\
  length board_last_cell = 9%nat /\
  (is_terminal board_last_cell = Ok false ->
   forall d last_move,
   exists score m h',
     minimax_pruning 0%nat O (S d) NegInf PosInf last_move
       (store_of board_last_cell) = Ok ((score, Some m), h') /\
     (1 <= m <= 9)%nat /\ board_last_cell !! (m - 1)%nat = Some Empty) /\
  (forall depth i,
     is_terminal board_last_cell = Ok true \/ depth = 0%nat ->
     exists score,
       minimax_pruning 0%nat O depth NegInf PosInf (Some i)
         (store_of board_last_cell) =
       Ok ((score, None), store_of board_last_cell)).
Proof.
  split; [apply points_to_store_of|]. split; [reflexivity|].
  apply (returned_move_is_cell_number (store_of board_last_cell) 0%nat
           board_last_cell O NegInf PosInf);
    [apply points_to_store_of|reflexivity].
Defined.

(** C6, as stated, fails: at depth 1 the call returns move 3, not 2. *)
Lemma immediate_win_move_not_2 :
  run board_win_in_one O 1 NegInf PosInf None <> Ok (100, Some 2%nat).
Proof. vm_compute. discriminate. Qed.

(** C6, amended.  On the board with O at cells 0 and 1 and X at cells 3
    and 4, for every depth >= 1, the call with mover O and the default
    window returns score 100 with move 3, the number of the cell of index 2
    that completes O's top row. *)
Theorem immediate_win_move_3 (d : nat) (last_move : option nat) :
  run board_win_in_one O (S d) NegInf PosInf last_move = Ok (100, Some 3%nat).
Proof.
  unfold run.
  destruct (minimax_pruning_recursive (store_of board_win_in_one) 0%nat
              board_win_in_one O d NegInf PosInf last_move)
    as (h' & _ & E & _);
    [apply points_to_store_of|reflexivity|vm_compute; reflexivity|].
  rewrite E. cbn [outcome]. f_equal.
  rewrite explored_eq.
  change (seq 0 9) with (0 :: 1 :: 2 :: seq 3 6)%nat.
  rewrite !loop_skip by reflexivity.
  destruct (loop_O_first_100
              (fun b' a be => fst (Pure.search b' (opponent O) d a be))
              board_win_in_one 2 (seq 3 6))
    as (scores & moves & Eloop & Hall & Hlen).
  - reflexivity.
  - rewrite search_terminal by (vm_compute; reflexivity). reflexivity.
  - intros j a be. apply search_bounds. now rewrite place_length.
  - rewrite Eloop. cbn [fst snd]. now apply best_O_head.
Qed.

(** C7. In the recursive case, with [scores] and [moves] the lists the loop
    built from the explored children, the call returns the score at a
    position [k] and the move at the same position; that score is the least
    of [scores] for X and the greatest for O; every earlier score is
    strictly worse, so a later equal score does not replace it; and among
    the children with that score the returned move is the lowest. *)
Theorem first_extremal_child_selected (h : store) (s : loc) (b : list cell)
  (player : mark) (d : nat) (alpha beta : num) (last_move : option nat) :
  points_to h s b -> length b = 9%nat -> is_terminal b = Ok false ->
  exists scores moves h' k score move,
    explore
      (fun new_state alpha beta i =>
         minimax_pruning new_state (opponent player) d alpha beta (Some i))
      s player (seq 0 9) alpha beta [] [] h = Ok ((scores, moves), h') /\
    minimax_pruning s player (S d) alpha beta last_move h =
      Ok ((score, Some move), h') /\
    scores !! k = Some score /\
    moves !! k = Some move /\
    (forall j w, scores !! j = Some w ->
       match player with X => score <= w | O => w <= score end) /\
    (forall j w, (j < k)%nat -> scores !! j = Some w ->
       match player with X => score < w | O => w < score end) /\
    (forall j m, scores !! j = Some score -> moves !! j = Some m ->
       (move <= m)%nat).
Proof.
  intros Hp Hb Ht. apply is_terminal_false in Ht; [|exact Hb].
  destruct (recursive_choice h s b player d alpha beta last_move Hp Hb Ht)
    as (scores & moves & h' & k & score & move & Hloop & Hcall & _ & _ & _
        & _ & Hs & Hm & Hbest & Hfirst & _ & Hincr).
  exists scores, moves, h', k, score, move.
  split; [exact Hloop|]. split; [exact Hcall|]. split; [exact Hs|].
  split; [exact Hm|]. split; [exact Hbest|]. split; [exact Hfirst|].
  intros j m Hj Hmj.
  destruct (Nat.lt_trichotomy j k) as [Hlt|[->|Hgt]].
  - specialize (Hfirst j score Hlt Hj). destruct player; lia.
  - rewrite Hm in Hmj. injection Hmj as <-. lia.
  - specialize (Hincr k j move m Hgt Hm Hmj). lia.
Qed.

Lemma first_extremal_child_selected_witness :
  points_to (store_of board_win_in_one) 0%nat board_win_in_one /\
  length board_win_in_one = 9%nat /\
  is_terminal board_win_in_one = Ok false /\
  exists scores moves h' k score move,
    explore
      (fun new_state alpha beta i =>
         minimax_pruning new_state (opponent X) 1 alpha beta (Some i))
      0%nat X (seq 0 9) NegInf PosInf [] [] (store_of board_win_in_one) =
      Ok ((scores, moves), h') /\
    minimax_pruning 0%nat X 2 NegInf PosInf None
      (store_of board_win_in_one) = Ok ((score, Some move), h') /\
    scores !! k = Some score /\
    moves !! k = Some move /\
    (forall j w, scores !! j = Some w -> score <= w) /\
    (forall j w, (j < k)%nat -> scores !! j = Some w -> score < w) /\
    (forall j m, scores !! j = Some score -> moves !! j = Some m ->
       (move <= m)%nat).
Proof.
  split; [apply points_to_store_of|]. split; [reflexivity|].
  split; [vm_compute; reflexivity|].
  apply (first_extremal_child_selected (store_of board_win_in_one) 0%nat
           board_win_in_one X 1 NegInf PosInf None);
    [apply points_to_store_of|reflexivity|vm_compute; reflexivity].
Defined.

(** C8. A call that returns leaves every object that existed before it as it
    was, so the caller's state still has the same board list with the same
    cells; the call returns unless it raises on the trace line; and a
    successor is a new state whose new list is the parent's cells with the
    one empty cell [i] set to the mover's symbol. *)
Theorem caller_board_unchanged (h : store) (s : loc) (b : list cell) :
  points_to h s b -> length b = 9%nat ->
  (forall player depth alpha beta last_move r h',
     minimax_pruning s player depth alpha beta last_move h = Ok (r, h') ->
     extends h h' /\ points_to h' s b) /\
  (forall player depth alpha beta last_move,
     trace_fails b depth last_move = false ->
     exists r h',
       minimax_pruning s player depth alpha beta last_move h = Ok (r, h')) /\
  (forall i player,
     b !! i = Some Empty ->
     exists s' h1,
       successor s i player h = Ok (s', h1) /\
       objs h !! s' = None /\
       (forall l, objs h1 !! s' = Some l -> lists h !! l = None) /\
       extends h h1 /\
       points_to h1 s b /\
       points_to h1 s' (<[i := Mark player]> b)).
Proof.
  intros Hp Hb. split; [|split].
  - intros player depth alpha beta last_move r h' E.
    pose proof (minimax_pruning_run depth h s b player alpha beta last_move
                  Hp Hb) as H.
    destruct (trace_fails b depth last_move).
    + rewrite H in E. discriminate E.
    + destruct H as (h1 & E1 & Hext). rewrite E1 in E.
      injection E as _ <-. split; [exact Hext|].
      eapply points_to_extends; eassumption.
  - intros player depth alpha beta last_move Hf.
    pose proof (minimax_pruning_run depth h s b player alpha beta last_move
                  Hp Hb) as H.
    rewrite Hf in H. destruct H as (h1 & E1 & _). eauto.
  - intros i player Hi.
    destruct (successor_run h s b i player Hp)
      as (s' & h1 & E & Hext & Hp' & Hnew & Hlist).
    { eapply lookup_lt_Some; exact Hi. }
    exists s', h1. split; [exact E|]. split; [exact Hnew|].
    split; [exact Hlist|]. split; [exact Hext|].
    split; [eapply points_to_extends; eassumption|exact Hp'].
Qed.

Lemma caller_board_unchanged_witness :
  points_to (store_of board_win_in_one) 0%nat board_win_in_one /\
  length board_win_in_one = 9%nat /\
  (forall player depth alpha beta last_move r h',
     minimax_pruning 0%nat player depth alpha beta last_move
       (store_of board_win_in_one) = Ok (r, h') ->
     extends (store_of board_win_in_one) h' /\
     points_to h' 0%nat board_win_in_one) /\
  (forall player depth alpha beta last_move,
     trace_fails board_win_in_one depth last_move = false ->
     exists r h',
       minimax_pruning 0%nat player depth alpha beta last_move
         (store_of board_win_in_one) = Ok (r, h')) /\
  (forall i player,
     board_win_in_one !! i = Some Empty ->
     exists s' h1,
       successor 0%nat i player (store_of board_win_in_one) = Ok (s', h1) /\
       objs (store_of board_win_in_one) !! s' = None /\
       (forall l, objs h1 !! s' = Some l ->
          lists (store_of board_win_in_one) !! l = None) /\
       extends (store_of board_win_in_one) h1 /\
       points_to h1 0%nat board_win_in_one /\
       points_to h1 s' (<[i := Mark player]> board_win_in_one)).
Proof.
  split; [apply points_to_store_of|]. split; [reflexivity|].
  apply (caller_board_unchanged (store_of board_win_in_one) 0%nat
           board_win_in_one);
    [apply points_to_store_of|reflexivity].
Defined.

(** C9. On a terminal board the call with the default [last_move = None]
    raises [TypeError] on the trace line ([last_move + 1]) instead of
    returning the terminal score; with a cell index as [last_move], as in
    the recursive calls, it returns the terminal score and move [None]. *)
Theorem terminal_default_call_raises_TypeError (h : store) (s : loc)
  (b : list cell) (player : mark) (depth : nat) (alpha beta : num) :
  points_to h s b -> length b = 9%nat -> is_terminal b = Ok true ->
  minimax_pruning s player depth alpha beta None h = Raise TypeError /\
  (forall i,
     minimax_pruning s player depth alpha beta (Some i) h =
     Ok ((terminal_score b, None), h)).
Proof.
  intros Hp Hb Ht. apply is_terminal_true in Ht; [|exact Hb]. split.
  - now rewrite (minimax_pruning_terminal h s b).
  - intros i. now rewrite (minimax_pruning_terminal h s b).
Qed.

Lemma terminal_default_call_raises_TypeError_witness :
  points_to (store_of board_draw) 0%nat board_draw /\
  length board_draw = 9%nat /\
  is_terminal board_draw = Ok true /\
  minimax_pruning 0%nat O 3 NegInf PosInf None (store_of board_draw) =
    Raise TypeError /\
  (forall i,
     minimax_pruning 0%nat O 3 NegInf PosInf (Some i) (store_of board_draw) =
     Ok ((terminal_score board_draw, None), store_of board_draw)).
Proof.
  split; [apply points_to_store_of|]. split; [reflexivity|].
  split; [vm_compute; reflexivity|].
  apply (terminal_default_call_raises_TypeError (store_of board_draw) 0%nat
           board_draw O 3 NegInf PosInf);
    [apply points_to_store_of|reflexivity|vm_compute; reflexivity].
Defined.

(** C10. When the recursive phase is reached (depth > 0, board not
    terminal), the board has an empty cell, the loop returns a non-empty
    list of scores with one move per score, whatever the window, and the
    selection on these lists does not raise: the call returns its result. *)
Theorem selection_never_on_empty_list (h : store) (s : loc) (b : list cell)
  (player : mark) (d : nat) (alpha beta : num) (last_move : option nat) :
  points_to h s b -> length b = 9%nat -> is_terminal b = Ok false ->
  (exists i, (i < 9)%nat /\ b !! i = Some Empty) /\
  exists scores moves h' v,
    explore
      (fun new_state alpha beta i =>
         minimax_pruning new_state (opponent player) d alpha beta (Some i))
      s player (seq 0 9) alpha beta [] [] h = Ok ((scores, moves), h') /\
    scores <> [] /\
    length scores = length moves /\
    select_best player scores moves = Ok v /\
    minimax_pruning s player (S d) alpha beta last_move h = Ok (v, h').
Proof.
  intros Hp Hb Ht. apply is_terminal_false in Ht; [|exact Hb]. split.
  - assert (Hf : Spec.full b = false).
    { unfold Spec.terminal in Ht. now apply orb_false_elim in Ht as [_ ?]. }
    destruct (not_full_lookup b Hf) as (i & Hi & He).
    exists i. split; [lia|]. now apply is_empty_lookup.
  - destruct (recursive_choice h s b player d alpha beta last_move Hp Hb Ht)
      as (scores & moves & h' & k & score & move & Hloop & Hcall & Hsel & _
          & Hne & Hlen & _).
    exists scores, moves, h', (score, Some move). repeat split; assumption.
Qed.

Lemma selection_never_on_empty_list_witness :
  points_to (store_of board_last_cell) 0%nat board_last_cell /\
  length board_last_cell = 9%nat /\
  is_terminal board_last_cell = Ok false /\
  (exists i, (i < 9)%nat /\ board_last_cell !! i = Some Empty) /\
  exists scores moves h' v,
    explore
      (fun new_state alpha beta i =>
         minimax_pruning new_state (opponent O) 0 alpha beta (Some i))
      0%nat O (seq 0 9) (Int 5) (Int 5) [] [] (store_of board_last_cell) =
      Ok ((scores, moves), h') /\
    scores <> [] /\
    length scores = length moves /\
    select_best O scores moves = Ok v /\
    minimax_pruning 0%nat O 1 (Int 5) (Int 5) None
      (store_of board_last_cell) = Ok (v, h').
Proof.
  split; [apply points_to_store_of|]. split; [reflexivity|].
  split; [vm_compute; reflexivity|].
  apply (selection_never_on_empty_list (store_of board_last_cell) 0%nat
           board_last_cell O 0 (Int 5) (Int 5) None);
    [apply points_to_store_of|reflexivity|vm_compute; reflexivity].
Defined.

(** * Further properties of the search *)

(** X1. Every score returned by [minimax_pruning], for any window and any
    depth, lies between -100 and 100. *)
Theorem returned_score_in_range (h : store) (s : loc) (b : list cell)
  (player : mark) (depth : nat) (alpha beta : num) (last_move : option nat) :
  points_to h s b -> length b = 9%nat ->
  match minimax_pruning s player depth alpha beta last_move h with
  | Ok ((score, _), _) => -100 <= score <= 100
  | Raise e => e = TypeError /\ trace_fails b depth last_move = true
  end.
Proof.
  intros Hp Hb.
  pose proof (minimax_pruning_run depth h s b player alpha beta last_move
                Hp Hb) as H.
  destruct (trace_fails b depth last_move).
  - rewrite H. now split.
  - destruct H as (h' & E & _). rewrite E.
    pose proof (search_bounds depth b player alpha beta Hb) as Hbd.
    now destruct (Pure.search b player depth alpha beta).
Qed.

Lemma returned_score_in_range_witness :
  match minimax_pruning 0%nat X 2 (Int (-3)) (Int 7) (Some 4%nat)
          (store_of board_win_in_one) with
  | Ok ((score, _), _) => -100 <= score <= 100
  | Raise e =>
      e = TypeError /\ trace_fails board_win_in_one 2 (Some 4%nat) = true
  end.
Proof.
  apply (returned_score_in_range (store_of board_win_in_one) 0%nat
           board_win_in_one X 2 (Int (-3)) (Int 7) (Some 4%nat));
    [apply points_to_store_of|reflexivity].
Defined.

Lemma agree_cases (alpha beta : num) (r t : Z) :
  nlt alpha beta -> agree alpha beta r t ->
  (num_ltb alpha (Int r) = true -> num_ltb (Int r) beta = true -> r = t) /\
  (num_leb (Int r) alpha = true -> num_leb (Int t) alpha = true) /\
  (num_leb beta (Int r) = true -> num_leb beta (Int t) = true).
Proof.
  unfold agree, clamp. intros Hw H. num_cases;
    repeat split; intros; simplify_eq; try reflexivity; try lia.
Qed.

(** X2. For every window with [alpha < beta], the returned score is the
    full-width value when it lies strictly inside the window; a score at
    or below [alpha] means the full-width value is at or below [alpha],
    and a score at or above [beta] means it is at or above [beta]. *)
Theorem window_score_sound (h : store) (s : loc) (b : list cell)
  (player : mark) (depth : nat) (alpha beta : num) (last_move : option nat) :
  points_to h s b -> length b = 9%nat -> num_ltb alpha beta = true ->
  match minimax_pruning s player depth alpha beta last_move h with
  | Ok ((score, _), _) =>
      (num_ltb alpha (Int score) = true ->
       num_ltb (Int score) beta = true ->
       score = Spec.minimax_full b player depth) /\
      (num_leb (Int score) alpha = true ->
       num_leb (Int (Spec.minimax_full b player depth)) alpha = true) /\
      (num_leb beta (Int score) = true ->
       num_leb beta (Int (Spec.minimax_full b player depth)) = true)
  | Raise e => e = TypeError /\ trace_fails b depth last_move = true
  end.
Proof.
  intros Hp Hb Hw.
  pose proof (minimax_pruning_run depth h s b player alpha beta last_move
                Hp Hb) as H.
  destruct (trace_fails b depth last_move).
  - rewrite H. now split.
  - destruct H as (h' & E & _). rewrite E.
    pose proof (search_agree depth b player alpha beta Hb Hw) as Ha.
    destruct (Pure.search b player depth alpha beta) as [score move].
    cbn [fst] in Ha. now apply agree_cases.
Qed.

Lemma window_score_sound_witness :
  match minimax_pruning 0%nat X 2 (Int (-3)) (Int 7) (Some 4%nat)
          (store_of board_win_in_one) with
  | Ok ((score, _), _) =>
      (num_ltb (Int (-3)) (Int score) = true ->
       num_ltb (Int score) (Int 7) = true ->
       score = Spec.minimax_full board_win_in_one X 2) /\
      (num_leb (Int score) (Int (-3)) = true ->
       num_leb (Int (Spec.minimax_full board_win_in_one X 2)) (Int (-3)) =
       true) /\
      (num_leb (Int 7) (Int score) = true ->
       num_leb (Int 7) (Int (Spec.minimax_full board_win_in_one X 2)) = true)
  | Raise e =>
      e = TypeError /\ trace_fails board_win_in_one 2 (Some 4%nat) = true
  end.
Proof.
  apply (window_score_sound (store_of board_win_in_one) 0%nat
           board_win_in_one X 2 (Int (-3)) (Int 7) (Some 4%nat));
    [apply points_to_store_of|reflexivity|reflexivity].
Defined.

(** ** The window of each explored child *)

Lemma nmax_list_lt (l : list Z) (v : Z) :
  (forall j w, l !! j = Some w -> w < v) -> nlt (nmax_list l) (Int v).
Proof.
  induction l as [|y l IH]; intros H; [reflexivity|].
  cbn [nmax_list fold_right]. fold (nmax_list l).
  assert (Hy : y < v) by (apply (H 0%nat); reflexivity).
  assert (Hl : nlt (nmax_list l) (Int v))
    by (apply IH; intros j w Hj; apply (H (S j)); exact Hj).
  revert Hl. generalize (nmax_list l). clear -Hy. intros n Hl. num_cases.
Qed.

Lemma nmin_list_gt (l : list Z) (v : Z) :
  (forall j w, l !! j = Some w -> v < w) -> nlt (Int v) (nmin_list l).
Proof.
  induction l as [|y l IH]; intros H; [reflexivity|].
  cbn [nmin_list fold_right]. fold (nmin_list l).
  assert (Hy : v < y) by (apply (H 0%nat); reflexivity).
  assert (Hl : nlt (Int v) (nmin_list l))
    by (apply IH; intros j w Hj; apply (H (S j)); exact Hj).
  revert Hl. generalize (nmin_list l). clear -Hy. intros n Hl. num_cases.
Qed.

Lemma agree_exact_max (w : num) (r t : Z) :
  nlt w (Int r) -> agree w PosInf r t -> t = r.
Proof. unfold agree, clamp. intros Hw H. num_cases. Qed.

Lemma agree_exact_min (w : num) (r t : Z) :
  nlt (Int r) w -> agree NegInf w r t -> t = r.
Proof. unfold agree, clamp. intros Hw H. num_cases. Qed.

Section Each.

Variable child : list cell -> num -> num -> Z.
Variable value : list cell -> Z.
Variable b : list cell.
Variables alpha0 beta0 : num.

Section EachMax.

Hypothesis child_agree :
  forall i alpha beta,
    Spec.is_empty b i = true -> nlt alpha beta ->
    agree alpha beta (child (Spec.place b i O) alpha beta)
      (value (Spec.place b i O)).

(** Each score of the loop agrees with the full-width value of its move
    through the window the child was called with: the greatest of [alpha0]
    and the scores before it, and [beta0]. *)
Lemma loop_max_each (range : list nat) :
  forall alpha scores moves,
    alpha = num_max alpha0 (nmax_list scores) ->
    length scores = length moves ->
    (forall k r m,
       scores !! k = Some r -> moves !! k = Some m ->
       exists i,
         m = (i + 1)%nat /\ Spec.is_empty b i = true /\
         (nlt (num_max alpha0 (nmax_list (take k scores))) beta0 ->
          agree (num_max alpha0 (nmax_list (take k scores))) beta0 r
            (value (Spec.place b i O)))) ->
    forall k r m,
      fst (Pure.loop child b O range alpha beta0 scores moves) !! k =
        Some r ->
      snd (Pure.loop child b O range alpha beta0 scores moves) !! k =
        Some m ->
      exists i,
        m = (i + 1)%nat /\ Spec.is_empty b i = true /\
        (nlt (num_max alpha0
                (nmax_list
                   (take k
                      (fst (Pure.loop child b O range alpha beta0 scores
                              moves))))) beta0 ->
         agree
           (num_max alpha0
              (nmax_list
                 (take k
                    (fst (Pure.loop child b O range alpha beta0 scores
                            moves))))) beta0 r
           (value (Spec.place b i O))).
Proof.
  induction range as [|i rest IH]; intros alpha scores moves Ha Hlen Hold;
    cbn [Pure.loop]; [exact Hold|].
  destruct (Spec.is_empty b i) eqn:He; [|now apply IH].
  cbv zeta. cbn [mark_eqb].
  set (r0 := child (Spec.place b i O) alpha beta0).
  assert (Hnew :
    forall k r m,
      (scores ++ [r0]) !! k = Some r ->
      (moves ++ [(i + 1)%nat]) !! k = Some m ->
      exists i0,
        m = (i0 + 1)%nat /\ Spec.is_empty b i0 = true /\
        (nlt (num_max alpha0 (nmax_list (take k (scores ++ [r0])))) beta0 ->
         agree (num_max alpha0 (nmax_list (take k (scores ++ [r0])))) beta0
           r (value (Spec.place b i0 O)))).
  { intros k r m Hr Hm.
    destruct (Nat.lt_ge_cases k (length scores)) as [Hlt|Hge].
    - rewrite lookup_app_l in Hr by exact Hlt.
      rewrite lookup_app_l in Hm by (rewrite <- Hlen; exact Hlt).
      rewrite take_app_le by lia. now apply Hold.
    - assert (k = length scores).
      { apply lookup_lt_Some in Hr. rewrite length_app in Hr. cbn in Hr.
        lia. }
      subst k. rewrite list_lookup_middle in Hr by reflexivity.
      rewrite Hlen in Hm. rewrite list_lookup_middle in Hm by reflexivity.
      injection Hr as <-. injection Hm as <-.
      exists i. split; [reflexivity|]. split; [exact He|].
      rewrite take_app_le by lia. rewrite take_ge by lia.
      rewrite <- Ha. intros Hw. unfold r0. now apply child_agree. }
  assert (Hlen' : length (scores ++ [r0]) = length (moves ++ [(i + 1)%nat]))
    by (rewrite !length_app; cbn; lia).
  match goal with |- context [if ?c then _ else _] => destruct c end.
  - exact Hnew.
  - apply IH; [|exact Hlen'|exact Hnew].
    rewrite nmax_list_snoc, <- num_max_assoc. now rewrite Ha.
Qed.

End EachMax.

Section EachMin.

Hypothesis child_agree :
  forall i alpha beta,
    Spec.is_empty b i = true -> nlt alpha beta ->
    agree alpha beta (child (Spec.place b i X) alpha beta)
      (value (Spec.place b i X)).

Lemma loop_min_each (range : list nat) :
  forall beta scores moves,
    beta = num_min beta0 (nmin_list scores) ->
    length scores = length moves ->
    (forall k r m,
       scores !! k = Some r -> moves !! k = Some m ->
       exists i,
         m = (i + 1)%nat /\ Spec.is_empty b i = true /\
         (nlt alpha0 (num_min beta0 (nmin_list (take k scores))) ->
          agree alpha0 (num_min beta0 (nmin_list (take k scores))) r
            (value (Spec.place b i X)))) ->
    forall k r m,
      fst (Pure.loop child b X range alpha0 beta scores moves) !! k =
        Some r ->
      snd (Pure.loop child b X range alpha0 beta scores moves) !! k =
        Some m ->
      exists i,
        m = (i + 1)%nat /\ Spec.is_empty b i = true /\
        (nlt alpha0
           (num_min beta0
              (nmin_list
                 (take k
                    (fst (Pure.loop child b X range alpha0 beta scores
                            moves))))) ->
         agree alpha0
           (num_min beta0
              (nmin_list
                 (take k
                    (fst (Pure.loop child b X range alpha0 beta scores
                            moves))))) r
           (value (Spec.place b i X))).
Proof.
  induction range as [|i rest IH]; intros beta scores moves Ha Hlen Hold;
    cbn [Pure.loop]; [exact Hold|].
  destruct (Spec.is_empty b i) eqn:He; [|now apply IH].
  cbv zeta. cbn [mark_eqb].
  set (r0 := child (Spec.place b i X) alpha0 beta).
  assert (Hnew :
    forall k r m,
      (scores ++ [r0]) !! k = Some r ->
      (moves ++ [(i + 1)%nat]) !! k = Some m ->
      exists i0,
        m = (i0 + 1)%nat /\ Spec.is_empty b i0 = true /\
        (nlt alpha0 (num_min beta0 (nmin_list (take k (scores ++ [r0])))) ->
         agree alpha0 (num_min beta0 (nmin_list (take k (scores ++ [r0]))))
           r (value (Spec.place b i0 X)))).
  { intros k r m Hr Hm.
    destruct (Nat.lt_ge_cases k (length scores)) as [Hlt|Hge].
    - rewrite lookup_app_l in Hr by exact Hlt.
      rewrite lookup_app_l in Hm by (rewrite <- Hlen; exact Hlt).
      rewrite take_app_le by lia. now apply Hold.
    - assert (k = length scores).
      { apply lookup_lt_Some in Hr. rewrite length_app in Hr. cbn in Hr.
        lia. }
      subst k. rewrite list_lookup_middle in Hr by reflexivity.
      rewrite Hlen in Hm. rewrite list_lookup_middle in Hm by reflexivity.
      injection Hr as <-. injection Hm as <-.
      exists i. split; [reflexivity|]. split; [exact He|].
      rewrite take_app_le by lia. rewrite take_ge by lia.
      rewrite <- Ha. intros Hw. unfold r0. now apply child_agree. }
  assert (Hlen' : length (scores ++ [r0]) = length (moves ++ [(i + 1)%nat]))
    by (rewrite !length_app; cbn; lia).
  match goal with |- context [if ?c then _ else _] => destruct c end.
  - exact Hnew.
  - apply IH; [|exact Hlen'|exact Hnew].
    rewrite nmin_list_snoc, <- num_min_assoc. now rewrite Ha.
Qed.

End EachMin.

End Each.

(** ** The move chosen at the root *)

Lemma at_lookup (b : list cell) (i : nat) (c : cell) :
  b !! i = Some c -> Spec.at_ b i = c.
Proof. intros H. unfold Spec.at_. now apply nth_lookup_Some. Qed.

Lemma at_place_eq (b : list cell) (i : nat) (player : mark) :
  (i < length b)%nat -> Spec.at_ (Spec.place b i player) i = Mark player.
Proof.
  intros Hi. apply at_lookup. unfold Spec.place.
  now apply list_lookup_insert_eq.
Qed.

Lemma at_place_ne (b : list cell) (i j : nat) (player : mark) :
  i <> j -> Spec.at_ (Spec.place b i player) j = Spec.at_ b j.
Proof.
  intros Hne. unfold Spec.at_, Spec.place.
  rewrite !nth_lookup. now rewrite list_lookup_insert_ne.
Qed.

(** The chosen move at the root window, on the search by value. *)
Lemma search_root_move (b : list cell) (player : mark) (d : nat) :
  length b = 9%nat -> Spec.terminal b = false ->
  exists i,
    snd (Pure.search b player (S d) NegInf PosInf) = Some (i + 1)%nat /\
    (i < 9)%nat /\
    Spec.is_empty b i = true /\
    Spec.minimax_full (Spec.place b i player) (opponent player) d =
    fst (Pure.search b player (S d) NegInf PosInf).
Proof.
  intros Hb Ht. rewrite search_recursive by exact Ht.
  destruct (explored_nonempty b player d NegInf PosInf Hb Ht) as [Hne Hlen].
  unfold Pure.best.
  destruct (select_best_first player _ _ Hne Hlen)
    as (k & move & E & Hm & Hs & Hfirst).
  rewrite E. cbn [fst snd].
  destruct (explored_moves b player d NegInf PosInf) as [Hcells _].
  specialize (Hcells k move Hm). destruct Hcells as [Hrange _].
  rewrite explored_eq in Hm, Hs, Hfirst |- *.
  destruct player; cbn [opponent] in *.
  - destruct (loop_min_each
                (fun b' a be => fst (Pure.search b' O d a be))
                (fun b' => Spec.minimax_full b' O d) b NegInf PosInf)
      with (range := seq 0 9) (beta := PosInf) (scores := @nil Z)
           (moves := @nil nat) (k := k)
           (r := Spec.minimum
                   (fst (Pure.loop
                           (fun b' a be => fst (Pure.search b' O d a be))
                           b X (seq 0 9) NegInf PosInf [] [])))
           (m := move)
      as (i & -> & He & Hag); try assumption; try reflexivity.
    + intros i a be He Hw. apply search_agree; [|exact Hw].
      now rewrite place_length.
    + intros k0 r m H. discriminate H.
    + exists i. split; [reflexivity|]. split; [lia|]. split; [exact He|].
      rewrite num_min_PosInf in Hag.
      match type of Hag with
      | nlt NegInf ?w -> _ =>
          assert (Hlt : nlt (Int (Spec.minimum
                     (fst (Pure.loop
                             (fun b' a be => fst (Pure.search b' O d a be))
                             b X (seq 0 9) NegInf PosInf [] [])))) w)
      end.
      { apply nmin_list_gt. intros j w Hj.
        apply lookup_take_Some in Hj as [Hj Hjk]. now apply (Hfirst j). }
      apply agree_exact_min in Hag; [exact Hag|exact Hlt|].
      revert Hlt. clear. intros Hlt.
      match goal with |- nlt NegInf ?w => destruct w end;
        [discriminate Hlt|reflexivity|reflexivity].
  - destruct (loop_max_each
                (fun b' a be => fst (Pure.search b' X d a be))
                (fun b' => Spec.minimax_full b' X d) b NegInf PosInf)
      with (range := seq 0 9) (alpha := NegInf) (scores := @nil Z)
           (moves := @nil nat) (k := k)
           (r := Spec.maximum
                   (fst (Pure.loop
                           (fun b' a be => fst (Pure.search b' X d a be))
                           b O (seq 0 9) NegInf PosInf [] [])))
           (m := move)
      as (i & -> & He & Hag); try assumption; try reflexivity.
    + intros i a be He Hw. apply search_agree; [|exact Hw].
      now rewrite place_length.
    + intros k0 r m H. discriminate H.
    + exists i. split; [reflexivity|]. split; [lia|]. split; [exact He|].
      rewrite num_max_NegInf in Hag.
      match type of Hag with
      | nlt ?w PosInf -> _ =>
          assert (Hlt : nlt w (Int (Spec.maximum
                     (fst (Pure.loop
                             (fun b' a be => fst (Pure.search b' X d a be))
                             b O (seq 0 9) NegInf PosInf [] [])))))
      end.
      { apply nmax_list_lt. intros j w Hj.
        apply lookup_take_Some in Hj as [Hj Hjk]. now apply (Hfirst j). }
      apply agree_exact_max in Hag; [exact Hag|exact Hlt|].
      revert Hlt. clear. intros Hlt.
      match goal with |- nlt ?w PosInf => destruct w end;
        [reflexivity|reflexivity|discriminate Hlt].
Qed.

Lemma root_call (h : store) (s : loc) (b : list cell)
  (player : mark) (d : nat) (last_move : option nat) :
  points_to h s b -> length b = 9%nat -> Spec.terminal b = false ->
  exists score m h',
    minimax_pruning s player (S d) NegInf PosInf last_move h =
      Ok ((score, Some m), h') /\
    (1 <= m <= 9)%nat /\
    b !! (m - 1)%nat = Some Empty /\
    score = Spec.minimax_full b player (S d) /\
    Spec.minimax_full (<[(m - 1)%nat := Mark player]> b) (opponent player) d =
    score.
Proof.
  intros Hp Hb Ht.
  pose proof (minimax_pruning_run (S d) h s b player NegInf PosInf last_move
                Hp Hb) as H.
  replace (trace_fails b (S d) last_move) with false in H
    by (unfold trace_fails; rewrite Ht; now destruct last_move).
  destruct H as (h' & E & _).
  destruct (search_root_move b player d Hb Ht) as (i & Hm & Hi & He & Hval).
  pose proof (search_root b player (S d) Hb) as Hroot.
  destruct (Pure.search b player (S d) NegInf PosInf) as [score mv].
  cbn [fst snd] in *. subst mv.
  exists score, (i + 1)%nat, h'.
  replace (i + 1 - 1)%nat with i by lia.
  split; [exact E|]. split; [lia|].
  split; [apply is_empty_lookup; [lia|exact He]|].
  split; [now symmetry|exact Hval].
Qed.

(** X3. At the root window, with depth > 0 on a board that is not terminal,
    the returned score is the full-width value of the board and the returned
    move [m] is optimal: writing the mover's symbol in the empty cell
    [m - 1] gives a board whose full-width value, for the opponent with one
    ply less, is that same score. *)
Theorem returned_move_is_optimal (h : store) (s : loc) (b : list cell)
  (player : mark) (d : nat) (last_move : option nat) :
  points_to h s b -> length b = 9%nat -> is_terminal b = Ok false ->
  exists score m h',
    minimax_pruning s player (S d) NegInf PosInf last_move h =
      Ok ((score, Some m), h') /\
    (1 <= m <= 9)%nat /\
    b !! (m - 1)%nat = Some Empty /\
    score = Spec.minimax_full b player (S d) /\
    Spec.minimax_full (<[(m - 1)%nat := Mark player]> b) (opponent player) d =
    score.
Proof.
  intros Hp Hb Ht. apply is_terminal_false in Ht; [|exact Hb].
  now apply root_call.
Qed.

Lemma returned_move_is_optimal_witness :
  exists score m h',
    minimax_pruning 0%nat X 3 NegInf PosInf None
      (store_of board_win_in_one) = Ok ((score, Some m), h') /\
    (1 <= m <= 9)%nat /\
    board_win_in_one !! (m - 1)%nat = Some Empty /\
    score = Spec.minimax_full board_win_in_one X 3 /\
    Spec.minimax_full (<[(m - 1)%nat := Mark X]> board_win_in_one)
      (opponent X) 2 = score.
Proof.
  apply (returned_move_is_optimal (store_of board_win_in_one) 0%nat
           board_win_in_one X 2 None);
    [apply points_to_store_of|reflexivity|vm_compute; reflexivity].
Defined.

(** ** A move that wins at once *)

Lemma winner_lines (b : list cell) (symbol : mark) :
  Spec.winner b symbol = true <->
  exists l, In l lines /\
    forall i, In i l -> cell_is (Spec.at_ b i) symbol = true.
Proof.
  unfold Spec.winner. rewrite existsb_exists. split.
  - intros (l & Hl & Hall). exists l. split; [exact Hl|].
    now apply forallb_forall.
  - intros (l & Hl & Hall). exists l. split; [exact Hl|].
    now apply forallb_forall.
Qed.

(** A mark of one player completes no line of the other. *)
Lemma winner_place_other (b : list cell) (i : nat) (player : mark) :
  Spec.winner b (opponent player) = false ->
  Spec.winner (Spec.place b i player) (opponent player) = false.
Proof.
  intros Hno. destruct (Spec.winner (Spec.place b i player) _) eqn:Hw;
    [|reflexivity].
  apply winner_lines in Hw as (l & Hl & Hall).
  assert (Spec.winner b (opponent player) = true); [|congruence].
  apply winner_lines. exists l. split; [exact Hl|].
  intros j Hj. specialize (Hall j Hj).
  destruct (Nat.eq_dec i j) as [<-|Hne].
  - destruct (Nat.lt_ge_cases i (length b)) as [Hlt|Hge].
    + rewrite at_place_eq in Hall by exact Hlt.
      destruct player; discriminate Hall.
    + unfold Spec.place in Hall. now rewrite list_insert_ge in Hall.
  - now rewrite at_place_ne in Hall.
Qed.

Lemma minimax_full_bounds (b : list cell) (player : mark) (depth : nat) :
  length b = 9%nat -> -100 <= Spec.minimax_full b player depth <= 100.
Proof.
  intros Hb. rewrite <- search_root by exact Hb. now apply search_bounds.
Qed.

Lemma static_eval_not_win (b : list cell) (symbol : mark) :
  length b = 9%nat -> -100 < Spec.static_eval b symbol < 100.
Proof. intros Hb. pose proof (static_eval_bounds b symbol Hb). lia. Qed.

(** The full-width value of a board on which the mover can complete a
    line. *)
Lemma minimax_full_immediate_win (b : list cell) (player : mark) (d i : nat) :
  length b = 9%nat -> Spec.terminal b = false ->
  (i < 9)%nat -> Spec.is_empty b i = true ->
  Spec.winner (Spec.place b i player) player = true ->
  Spec.minimax_full b player (S d) =
  match player with X => -100 | O => 100 end.
Proof.
  intros Hb Ht Hi He Hw.
  assert (Hnot : Spec.winner b X = false /\ Spec.winner b O = false).
  { unfold Spec.terminal in Ht. apply orb_false_elim in Ht as [Ht _].
    now apply orb_false_elim in Ht. }
  assert (Hchild :
    Spec.minimax_full (Spec.place b i player) (opponent player) d =
    match player with X => -100 | O => 100 end).
  { rewrite minimax_full_terminal.
    - unfold terminal_score. destruct player.
      + now rewrite Hw.
      + pose proof (winner_place_other b i O (proj1 Hnot)) as Hx.
        cbn [opponent] in Hx. now rewrite Hx, Hw.
    - unfold Spec.terminal. destruct player.
      + now rewrite Hw.
      + rewrite Hw. now rewrite orb_true_r. }
  rewrite minimax_full_recursive by exact Ht.
  set (vals := values (fun b' => Spec.minimax_full b' (opponent player) d)
                 b player (seq 0 9)).
  assert (Hin : In (match player with X => -100 | O => 100 end) vals).
  { rewrite <- Hchild. unfold vals, values.
    apply (in_map (fun j =>
             Spec.minimax_full (Spec.place b j player) (opponent player) d)).
    apply filter_In. split; [apply in_seq; lia|exact He]. }
  assert (Hne : vals <> []) by (intros E; rewrite E in Hin; destruct Hin).
  assert (Hall : forall v, In v vals -> -100 <= v <= 100).
  { intros v Hv. unfold vals, values in Hv. apply in_map_iff in Hv
      as (j & <- & _). apply minimax_full_bounds. now rewrite place_length. }
  destruct player.
  - pose proof (minimum_le vals (-100) Hin).
    pose proof (Hall _ (minimum_In vals Hne)). fold vals. lia.
  - pose proof (maximum_ge vals 100 Hin).
    pose proof (Hall _ (maximum_In vals Hne)). fold vals. lia.
Qed.

(** A board whose full-width value at depth 0 is a win for [player]. *)
Lemma depth_zero_win (c : list cell) (player : mark) :
  length c = 9%nat ->
  Spec.minimax_full c (opponent player) 0 =
    match player with X => -100 | O => 100 end ->
  Spec.winner c player = true.
Proof.
  intros Hc Hv. destruct (Spec.terminal c) eqn:Ht.
  - rewrite minimax_full_terminal in Hv by exact Ht.
    unfold terminal_score in Hv.
    destruct player, (Spec.winner c X), (Spec.winner c O);
      try reflexivity; discriminate Hv.
  - rewrite minimax_full_cutoff in Hv by exact Ht.
    pose proof (static_eval_not_win c (opponent (opponent player)) Hc).
    unfold Spec.score_at_cutoff in Hv. destruct player; lia.
Qed.

(** X4. When the mover can complete a line with one mark, the call at the
    root window returns the winning score (-100 for X, 100 for O) at every
    depth > 0; at depth 1 the returned move itself completes a line. *)
Theorem immediate_win_found (h : store) (s : loc) (b : list cell)
  (player : mark) (d : nat) (last_move : option nat) (i : nat) :
  points_to h s b -> length b = 9%nat -> is_terminal b = Ok false ->
  b !! i = Some Empty ->
  is_winner (<[i := Mark player]> b) player = Ok true ->
  exists m h',
    minimax_pruning s player (S d) NegInf PosInf last_move h =
      Ok ((match player with X => -100 | O => 100 end, Some m), h') /\
    (1 <= m <= 9)%nat /\
    b !! (m - 1)%nat = Some Empty /\
    (d = 0%nat ->
     is_winner (<[(m - 1)%nat := Mark player]> b) player = Ok true).
Proof.
  intros Hp Hb Ht Hi Hw. apply is_terminal_false in Ht; [|exact Hb].
  assert (Hlt : (i < 9)%nat) by (rewrite <- Hb; eapply lookup_lt_Some; eauto).
  rewrite is_winner_spec in Hw by (now rewrite length_insert).
  injection Hw as Hw.
  assert (He : Spec.is_empty b i = true)
    by (unfold Spec.is_empty; now rewrite (at_lookup b i Empty)).
  destruct (root_call h s b player d last_move Hp Hb Ht)
    as (score & m & h' & E & Hm & Hcell & Hscore & Hchild).
  rewrite (minimax_full_immediate_win b player d i) in Hscore
    by assumption.
  subst score. exists m, h'.
  split; [exact E|]. split; [exact Hm|]. split; [exact Hcell|].
  intros ->. rewrite is_winner_spec by (now rewrite length_insert).
  f_equal. apply depth_zero_win; [now rewrite length_insert|exact Hchild].
Qed.

Lemma immediate_win_found_witness :
  exists m h',
    minimax_pruning 0%nat O 1 NegInf PosInf None
      (store_of board_win_in_one) = Ok ((100, Some m), h') /\
    (1 <= m <= 9)%nat /\
    board_win_in_one !! (m - 1)%nat = Some Empty /\
    (0%nat = 0%nat ->
     is_winner (<[(m - 1)%nat := Mark O]> board_win_in_one) O = Ok true).
Proof.
  apply (immediate_win_found (store_of board_win_in_one) 0%nat
           board_win_in_one O 0 None 2);
    [apply points_to_store_of|reflexivity|vm_compute; reflexivity
    |reflexivity|vm_compute; reflexivity].
Defined.

(** ** Depth beyond the number of empty cells *)

Lemma is_empty_place (b : list cell) (i j : nat) (player : mark) :
  (i < length b)%nat ->
  Spec.is_empty (Spec.place b i player) j =
  if Nat.eq_dec i j then false else Spec.is_empty b j.
Proof.
  intros Hi. unfold Spec.is_empty. destruct (Nat.eq_dec i j) as [<-|Hne].
  - now rewrite at_place_eq.
  - now rewrite at_place_ne.
Qed.

(** A mark in an empty cell leaves one legal move less. *)
Lemma filter_empty_place (b : list cell) (i : nat) (player : mark)
  (range : list nat) :
  (i < length b)%nat -> Spec.is_empty b i = true ->
  List.NoDup range -> In i range ->
  S (length (List.filter (Spec.is_empty (Spec.place b i player)) range)) =
  length (List.filter (Spec.is_empty b) range).
Proof.
  intros Hi He. induction range as [|j rest IH]; intros Hnd Hin;
    [destruct Hin|].
  apply List.NoDup_cons_iff in Hnd as [Hnotin Hnd]. cbn [List.filter].
  rewrite is_empty_place by exact Hi.
  destruct (Nat.eq_dec i j) as [<-|Hne].
  - rewrite He. cbn [length]. f_equal.
    f_equal. apply List.filter_ext_in. intros k Hk.
    rewrite is_empty_place by exact Hi.
    destruct (Nat.eq_dec i k) as [<-|]; [contradiction|reflexivity].
  - destruct Hin as [->|Hin]; [contradiction|].
    specialize (IH Hnd Hin).
    destruct (Spec.is_empty b j); cbn [length]; lia.
Qed.

Lemma legal_moves_place (b : list cell) (i : nat) (player : mark) :
  length b = 9%nat -> (i < 9)%nat -> Spec.is_empty b i = true ->
  S (length (Spec.legal_moves (Spec.place b i player))) =
  length (Spec.legal_moves b).
Proof.
  intros Hb Hi He. unfold Spec.legal_moves.
  apply filter_empty_place; [lia|exact He|apply List.seq_NoDup|].
  apply in_seq. lia.
Qed.

Lemma no_legal_move_full (b : list cell) :
  length b = 9%nat -> Spec.legal_moves b = [] -> Spec.full b = true.
Proof.
  intros Hb Hl. destruct (Spec.full b) eqn:Hf; [reflexivity|].
  destruct (not_full_empty_cell b Hb Hf) as (i & Hin & He).
  assert (In i (Spec.legal_moves b))
    by (unfold Spec.legal_moves; apply filter_In; now split).
  rewrite Hl in H. destruct H.
Qed.

(** The loop depends on the search of the successors only. *)
Lemma loop_ext (child1 child2 : list cell -> num -> num -> Z)
  (b : list cell) (player : mark) (range : list nat) :
  (forall i alpha beta,
     In i range -> Spec.is_empty b i = true ->
     child1 (Spec.place b i player) alpha beta =
     child2 (Spec.place b i player) alpha beta) ->
  forall alpha beta scores moves,
    Pure.loop child1 b player range alpha beta scores moves =
    Pure.loop child2 b player range alpha beta scores moves.
Proof.
  induction range as [|i rest IH]; intros Hext alpha beta scores moves;
    cbn [Pure.loop]; [reflexivity|].
  assert (Hrest : forall j alpha beta,
            In j rest -> Spec.is_empty b j = true ->
            child1 (Spec.place b j player) alpha beta =
            child2 (Spec.place b j player) alpha beta)
    by (intros j a be Hj; apply Hext; now right).
  destruct (Spec.is_empty b i) eqn:He; [|now apply IH].
  cbv zeta. rewrite (Hext i alpha beta (or_introl eq_refl) He).
  match goal with |- context [if ?c then _ else _] => destruct c end;
    [reflexivity|now apply IH].
Qed.

(** One ply more changes nothing once the depth covers the empty cells. *)
Lemma search_saturated (d : nat) :
  forall b player alpha beta,
    length b = 9%nat -> (length (Spec.legal_moves b) <= d)%nat ->
    Pure.search b player (S d) alpha beta = Pure.search b player d alpha beta.
Proof.
  induction d as [|d IH]; intros b player alpha beta Hb Hn.
  - assert (Ht : Spec.terminal b = true).
    { unfold Spec.terminal. rewrite (no_legal_move_full b Hb).
      - apply orb_true_r.
      - destruct (Spec.legal_moves b); [reflexivity|cbn in Hn; lia]. }
    now rewrite !search_terminal.
  - destruct (Spec.terminal b) eqn:Ht; [now rewrite !search_terminal|].
    rewrite !search_recursive by exact Ht. rewrite !explored_eq.
    rewrite (loop_ext
               (fun b' a be => fst (Pure.search b' (opponent player) (S d) a be))
               (fun b' a be => fst (Pure.search b' (opponent player) d a be)));
      [reflexivity|].
    intros i a be Hin He. f_equal. apply in_seq in Hin.
    apply IH; [now rewrite place_length|].
    pose proof (legal_moves_place b i player Hb ltac:(lia) He). lia.
Qed.

Lemma search_saturated_ge (b : list cell) (player : mark) (alpha beta : num)
  (depth : nat) :
  length b = 9%nat -> (length (Spec.legal_moves b) <= depth)%nat ->
  Pure.search b player depth alpha beta =
  Pure.search b player (length (Spec.legal_moves b)) alpha beta.
Proof.
  intros Hb Hn. induction Hn as [|d Hn IH]; [reflexivity|].
  rewrite search_saturated by assumption. exact IH.
Qed.

Lemma trace_fails_saturated (b : list cell) (depth : nat)
  (last_move : option nat) :
  length b = 9%nat -> (length (Spec.legal_moves b) <= depth)%nat ->
  trace_fails b depth last_move =
  trace_fails b (length (Spec.legal_moves b)) last_move.
Proof.
  intros Hb Hn. unfold trace_fails. destruct last_move; [reflexivity|].
  destruct (Spec.terminal b) eqn:Ht; [reflexivity|]. cbn [orb].
  assert (Hpos : (0 < length (Spec.legal_moves b))%nat).
  { destruct (Spec.legal_moves b) eqn:E; [|cbn; lia].
    pose proof (no_legal_move_full b Hb E) as Hf.
    unfold Spec.terminal in Ht. rewrite Hf, orb_true_r in Ht.
    discriminate Ht. }
  destruct depth; [lia|]. destruct (length (Spec.legal_moves b)); [lia|].
  reflexivity.
Qed.

(** X5. A depth at or above the number of empty cells (the legal moves)
    gives the same outcome (score and move, or the same exception) as a
    depth equal to that number: the search is then complete and a deeper
    budget changes nothing. *)
Theorem depth_beyond_empty_cells (h : store) (s : loc) (b : list cell)
  (player : mark) (depth : nat) (alpha beta : num) (last_move : option nat) :
  points_to h s b -> length b = 9%nat ->
  (length (Spec.legal_moves b) <= depth)%nat ->
  outcome (minimax_pruning s player depth alpha beta last_move h) =
  outcome
    (minimax_pruning s player (length (Spec.legal_moves b)) alpha beta
       last_move h).
Proof.
  intros Hp Hb Hn.
  pose proof (minimax_pruning_run depth h s b player alpha beta last_move
                Hp Hb) as H1.
  pose proof (minimax_pruning_run (length (Spec.legal_moves b)) h s b player
                alpha beta last_move Hp Hb) as H2.
  rewrite (trace_fails_saturated b depth last_move Hb Hn) in H1.
  rewrite (search_saturated_ge b player alpha beta depth Hb Hn) in H1.
  destruct (trace_fails b (length (Spec.legal_moves b)) last_move).
  - now rewrite H1, H2.
  - destruct H1 as (h1 & E1 & _). destruct H2 as (h2 & E2 & _).
    now rewrite E1, E2.
Qed.

Lemma depth_beyond_empty_cells_witness :
  outcome (minimax_pruning 0%nat O 7 NegInf PosInf None
             (store_of board_win_in_one)) =
  outcome
    (minimax_pruning 0%nat O (length (Spec.legal_moves board_win_in_one))
       NegInf PosInf None (store_of board_win_in_one)).
Proof.
  apply (depth_beyond_empty_cells (store_of board_win_in_one) 0%nat
           board_win_in_one O 7 NegInf PosInf None);
    [apply points_to_store_of|reflexivity|cbn; lia].
Defined.

(** * Further properties of [State] *)

Lemma static_eval_sign (b : list cell) (symbol : mark) :
  length b = 9%nat ->
  match symbol with
  | X => -24 <= Spec.static_eval b symbol <= 0
  | O => 0 <= Spec.static_eval b symbol <= 24
  end.
Proof.
  intros H. board9 b H.
  unfold Spec.static_eval, Spec.occupancy, Spec.sign.
  cbn -[cell_is Z.mul Z.add].
  repeat match goal with
         | |- context [cell_is ?c symbol] =>
             destruct (cell_is c symbol)
         end; destruct symbol; lia.
Qed.

(** X15. [evaluate] reads the cells 0 to 8 whatever they hold: on a list of
    fewer than nine cells it raises [IndexError]; on nine cells or more it
    returns a value that depends on the first nine only, from -24 to 0 for
    X and from 0 to 24 for O, so never a value that terminal scoring uses
    for a win. *)
Theorem evaluate_range_and_short_boards (b : list cell) (symbol : mark) :
  ((length b < 9)%nat -> evaluate b symbol = Raise IndexError) /\
  ((9 <= length b)%nat ->
   exists v,
     evaluate b symbol = Ok v /\
     evaluate (take 9 b) symbol = Ok v /\
     match symbol with
     | X => -24 <= v <= 0
     | O => 0 <= v <= 24
     end).
Proof.
  split.
  - intros H.
    do 9 (destruct b as [|? b]; [reflexivity|]). cbn in H. lia.
  - intros H.
    do 9 (destruct b as [|? b]; [cbn in H; lia|]).
    exists (Spec.static_eval (take 9 (c :: c0 :: c1 :: c2 :: c3 :: c4 :: c5
                                       :: c6 :: c7 :: b)) symbol).
    assert (E : evaluate (take 9 (c :: c0 :: c1 :: c2 :: c3 :: c4 :: c5
                                    :: c6 :: c7 :: b)) symbol =
                Ok (Spec.static_eval
                      (take 9 (c :: c0 :: c1 :: c2 :: c3 :: c4 :: c5
                                 :: c6 :: c7 :: b)) symbol))
      by (apply evaluate_spec; reflexivity).
    split; [|split; [exact E|]].
    + rewrite <- E. reflexivity.
    + apply static_eval_sign. reflexivity.
Qed.

Lemma evaluate_range_and_short_boards_witness :
  ((length board_X_won < 9)%nat ->
   evaluate board_X_won X = Raise IndexError) /\
  ((9 <= length board_X_won)%nat ->
   exists v,
     evaluate board_X_won X = Ok v /\
     evaluate (take 9 board_X_won) X = Ok v /\
     -24 <= v <= 0).
Proof. apply (evaluate_range_and_short_boards board_X_won X). Defined.

Lemma cell_is_lookup (b : list cell) (i : nat) (symbol : mark) :
  cell_is (Spec.at_ b i) symbol = true <-> b !! i = Some (Mark symbol).
Proof.
  unfold Spec.at_. rewrite nth_lookup.
  destruct (b !! i) as [[|m]|]; cbn; split; intros H; try discriminate H.
  - destruct m, symbol; try discriminate H; reflexivity.
  - injection H as ->. now destruct symbol.
Qed.

(** X16. On nine cells [is_winner(symbol)] never raises, and it is [True]
    exactly when the three cells of one of the eight lines (rows 0-1-2,
    3-4-5, 6-7-8; columns 0-3-6, 1-4-7, 2-5-8; diagonals 0-4-8, 2-4-6) all
    hold [symbol]. *)
Theorem is_winner_iff_line (b : list cell) (symbol : mark) :
  length b = 9%nat ->
  (is_winner b symbol = Ok true \/ is_winner b symbol = Ok false) /\
  (is_winner b symbol = Ok true <->
   exists l,
     In l [[0; 1; 2]; [3; 4; 5]; [6; 7; 8]; [0; 3; 6]; [1; 4; 7]; [2; 5; 8];
           [0; 4; 8]; [2; 4; 6]]%nat /\
     forall i, In i l -> b !! i = Some (Mark symbol)).
Proof.
  intros Hb. rewrite is_winner_spec by exact Hb. split.
  - destruct (Spec.winner b symbol); [now left|now right].
  - split.
    + intros [= Hw]. apply winner_lines in Hw as (l & Hl & Hall).
      exists l. split; [exact Hl|].
      intros i Hi. apply cell_is_lookup. now apply Hall.
    + intros (l & Hl & Hall). f_equal. apply winner_lines.
      exists l. split; [exact Hl|].
      intros i Hi. apply cell_is_lookup. now apply Hall.
Qed.

Lemma is_winner_iff_line_witness :
  (is_winner board_X_won X = Ok true \/ is_winner board_X_won X = Ok false) /\
  (is_winner board_X_won X = Ok true <->
   exists l,
     In l [[0; 1; 2]; [3; 4; 5]; [6; 7; 8]; [0; 3; 6]; [1; 4; 7]; [2; 5; 8];
           [0; 4; 8]; [2; 4; 6]]%nat /\
     forall i, In i l -> board_X_won !! i = Some (Mark X)).
Proof. apply (is_winner_iff_line board_X_won X). reflexivity. Defined.

(** ** The children of the root *)

(** With [beta = +inf] the loop of O never breaks; with [alpha = -inf] the
    loop of X never breaks. *)
Lemma loop_no_break (child : list cell -> num -> num -> Z) (b : list cell)
  (player : mark) (range : list nat) :
  forall alpha beta scores moves,
    match player with
    | O => beta = PosInf /\ alpha <> PosInf
    | X => alpha = NegInf /\ beta <> NegInf
    end ->
    snd (Pure.loop child b player range alpha beta scores moves) =
    moves ++
    map (fun i => (i + 1)%nat) (List.filter (Spec.is_empty b) range).
Proof.
  induction range as [|i rest IH]; intros alpha beta scores moves Hw;
    cbn [Pure.loop List.filter].
  - cbn. now rewrite app_nil_r.
  - destruct (Spec.is_empty b i); [|now apply IH]. cbv zeta.
    cbn [map]. destruct player; cbn [mark_eqb].
    + destruct Hw as [-> Hbeta].
      assert (Hnb : num_min beta
                      (Int (child (Spec.place b i X) NegInf beta)) <> NegInf)
        by (unfold num_min; destruct beta; cbn;
            try (destruct (_ <? _)); congruence).
      replace (num_leb (num_min beta
                 (Int (child (Spec.place b i X) NegInf beta))) NegInf)
        with false.
      * rewrite IH by (now split). now rewrite <- app_assoc.
      * revert Hnb. generalize (num_min beta
                 (Int (child (Spec.place b i X) NegInf beta))).
        intros n Hn. now destruct n.
    + destruct Hw as [-> Halpha].
      assert (Hna : num_max alpha
                      (Int (child (Spec.place b i O) alpha PosInf)) <> PosInf)
        by (unfold num_max; destruct alpha; cbn;
            try (destruct (_ <? _)); congruence).
      replace (num_leb PosInf (num_max alpha
                 (Int (child (Spec.place b i O) alpha PosInf))))
        with false.
      * rewrite IH by (now split). now rewrite <- app_assoc.
      * revert Hna. generalize (num_max alpha
                 (Int (child (Spec.place b i O) alpha PosInf))).
        intros n Hn. now destruct n.
Qed.

(** X17. At the root window the loop prunes none of the root's children:
    the moves it collects are the numbers [i + 1] of all the empty cells
    [i], in increasing order, one score for each. *)
Theorem root_explores_every_move (h : store) (s : loc) (b : list cell)
  (player : mark) (d : nat) :
  points_to h s b -> length b = 9%nat ->
  exists scores h',
    explore
      (fun new_state alpha beta i =>
         minimax_pruning new_state (opponent player) d alpha beta (Some i))
      s player (seq 0 9) NegInf PosInf [] [] h =
      Ok ((scores, map (fun i => (i + 1)%nat) (Spec.legal_moves b)), h') /\
    length scores = length (Spec.legal_moves b).
Proof.
  intros Hp Hb.
  destruct (explore_run _ _ s b player (seq 0 9)
              (call_computes_minimax (opponent player) d) Hb seq_0_9_bound
              h NegInf PosInf [] [] Hp) as (h' & Hrun & _).
  pose proof (loop_no_break
                (fun b' a be => fst (Pure.search b' (opponent player) d a be))
                b player (seq 0 9) NegInf PosInf [] []) as Hmoves.
  pose proof (loop_length
                (fun b' a be => fst (Pure.search b' (opponent player) d a be))
                b player (seq 0 9) NegInf PosInf [] [] eq_refl) as Hlen.
  assert (Hw : match player with
               | O => PosInf = PosInf /\ NegInf <> PosInf
               | X => NegInf = NegInf /\ PosInf <> NegInf
               end) by (destruct player; split; congruence).
  specialize (Hmoves Hw). cbn [app] in Hmoves.
  destruct (Pure.loop _ b player (seq 0 9) NegInf PosInf [] [])
    as [scores moves].
  cbn [fst snd] in *. subst moves.
  exists scores, h'. split; [exact Hrun|].
  rewrite Hlen, length_map. reflexivity.
Qed.

Lemma root_explores_every_move_witness :
  exists scores h',
    explore
      (fun new_state alpha beta i =>
         minimax_pruning new_state (opponent O) 1 alpha beta (Some i))
      0%nat O (seq 0 9) NegInf PosInf [] [] (store_of board_win_in_one) =
      Ok ((scores,
           map (fun i => (i + 1)%nat) (Spec.legal_moves board_win_in_one)),
          h') /\
    length scores = length (Spec.legal_moves board_win_in_one).
Proof.
  apply (root_explores_every_move (store_of board_win_in_one) 0%nat
           board_win_in_one O 1);
    [apply points_to_store_of|reflexivity].
Defined.

(** * The game *)

(** ** Moves on the board of the game *)

Lemma py_index_inside (len : nat) (k : Z) :
  0 <= k < Z.of_nat len -> py_index len k = Ok (Z.to_nat k).
Proof.
  intros H. unfold py_index.
  destruct (Z.leb_spec 0 k); [|lia]. destruct (Z.ltb_spec k (Z.of_nat len));
    [reflexivity|lia].
Qed.

Lemma py_index_negative (len : nat) (k : Z) :
  - Z.of_nat len <= k < 0 ->
  py_index len k = Ok (Z.to_nat (Z.of_nat len + k)).
Proof.
  intros H. unfold py_index.
  destruct (Z.leb_spec 0 k); [lia|]. cbn [andb].
  destruct (Z.leb_spec (- Z.of_nat len) k); [|lia].
  destruct (Z.ltb_spec k 0); [reflexivity|lia].
Qed.

Lemma py_index_outside (len : nat) (k : Z) :
  k < - Z.of_nat len \/ Z.of_nat len <= k ->
  py_index len k = Raise IndexError.
Proof.
  intros H. unfold py_index.
  destruct (Z.leb_spec 0 k), (Z.ltb_spec k (Z.of_nat len)),
    (Z.leb_spec (- Z.of_nat len) k), (Z.ltb_spec k 0);
    cbn [andb]; try reflexivity; lia.
Qed.

Lemma is_valid_move_run (game : Game) (h : store) (b : list cell) (n : Z) :
  points_to h (state game) b ->
  is_valid_move game (Move n) h =
  match py_index (length b) (n - 1) with
  | Ok i =>
      match b !! i with
      | Some c => Ok (match c with Empty => true | Mark _ => false end, h)
      | None => Raise IndexError
      end
  | Raise e => Raise e
  end.
Proof.
  intros (l & H1 & H2). unfold is_valid_move.
  rewrite (bind_Ok _ _ _ _ _ (get_board_run h (state game) l H1)).
  unfold bind at 1. unfold list_contents at 1. rewrite H2.
  unfold bind, lift, getitem, ret.
  destruct (py_index (length b) (n - 1)) as [i|e]; [|reflexivity].
  now destruct (b !! i).
Qed.

Lemma is_valid_move_cell (game : Game) (h : store) (b : list cell) (n : Z)
  (c : cell) :
  points_to h (state game) b -> 1 <= n <= Z.of_nat (length b) ->
  b !! Z.to_nat (n - 1) = Some c ->
  is_valid_move game (Move n) h =
  Ok (match c with Empty => true | Mark _ => false end, h).
Proof.
  intros Hp Hn Hc. rewrite (is_valid_move_run game h b n Hp).
  rewrite py_index_inside by lia. now rewrite Hc.
Qed.

(** The store after [l[i] = c] on the list [l] of the state. *)
Lemma make_move_run (game : Game) (h : store) (b : list cell) (n : Z)
  (l : loc) :
  objs h !! state game = Some l -> lists h !! l = Some b ->
  1 <= n <= Z.of_nat (length b) ->
  b !! Z.to_nat (n - 1) = Some Empty ->
  make_move game (Move n) h =
  Ok (true,
      Store (objs h)
        (<[l := <[Z.to_nat (n - 1) := Mark (current_player game)]> b]>
           (lists h))).
Proof.
  intros H1 H2 Hn Hc. unfold make_move.
  assert (Hp : points_to h (state game) b) by (exists l; now split).
  rewrite (bind_Ok _ _ _ _ _
             (is_valid_move_cell game h b n Empty Hp Hn Hc)).
  rewrite (bind_Ok _ _ _ _ _ (get_board_run h (state game) l H1)).
  unfold bind at 1. unfold list_contents at 1. rewrite H2.
  rewrite py_index_inside by lia. unfold bind at 1. unfold lift at 1.
  erewrite bind_Ok; [reflexivity|].
  apply list_setitem_run; [exact H2|].
  apply lookup_lt_Some in Hc. exact Hc.
Qed.

Lemma make_move_rejects (game : Game) (h : store) (b : list cell) (n : Z)
  (m : mark) :
  points_to h (state game) b -> 1 <= n <= Z.of_nat (length b) ->
  b !! Z.to_nat (n - 1) = Some (Mark m) ->
  make_move game (Move n) h = Ok (false, h).
Proof.
  intros Hp Hn Hc. unfold make_move.
  now rewrite (bind_Ok _ _ _ _ _
                 (is_valid_move_cell game h b n (Mark m) Hp Hn Hc)).
Qed.

(** X6. [is_valid_move(move)] looks at cell [move - 1] for a move from 1
    to 9, but it does not reject the moves from -8 to 0: Python's negative
    indices make them designate the cells from the end ([move = 0] is the
    last cell).  Other integers raise [IndexError], [None] raises
    [TypeError]; the store is never changed. *)
Theorem is_valid_move_indexing (game : Game) (h : store) (b : list cell) :
  points_to h (state game) b -> length b = 9%nat ->
  (forall n, 1 <= n <= 9 ->
     is_valid_move game (Move n) h =
     Ok (Spec.is_empty b (Z.to_nat (n - 1)), h)) /\
  (forall n, -8 <= n <= 0 ->
     is_valid_move game (Move n) h =
     Ok (Spec.is_empty b (Z.to_nat (8 + n)), h)) /\
  (forall n, n < -8 \/ 9 < n ->
     is_valid_move game (Move n) h = Raise IndexError) /\
  is_valid_move game NoMove h = Raise TypeError.
Proof.
  intros Hp Hb. split; [|split; [|split]].
  - intros n Hn. rewrite (is_valid_move_run game h b n Hp), Hb.
    rewrite py_index_inside by lia.
    destruct (lookup_lt_is_Some_2 b (Z.to_nat (n - 1))) as [c Hc]; [lia|].
    rewrite Hc. unfold Spec.is_empty. now rewrite (at_lookup b _ c Hc).
  - intros n Hn. rewrite (is_valid_move_run game h b n Hp), Hb.
    rewrite py_index_negative by lia.
    replace (Z.to_nat (Z.of_nat 9 + (n - 1))) with (Z.to_nat (8 + n)) by lia.
    destruct (lookup_lt_is_Some_2 b (Z.to_nat (8 + n))) as [c Hc]; [lia|].
    rewrite Hc. unfold Spec.is_empty. now rewrite (at_lookup b _ c Hc).
  - intros n Hn. rewrite (is_valid_move_run game h b n Hp), Hb.
    now rewrite py_index_outside by lia.
  - destruct Hp as (l & H1 & _). unfold is_valid_move.
    now rewrite (bind_Ok _ _ _ _ _ (get_board_run h (state game) l H1)).
Qed.

Lemma is_valid_move_indexing_witness :
  (forall n, 1 <= n <= 9 ->
     is_valid_move (MkGame 0%nat (fun _ => HumanPlayer X) O) (Move n)
       (store_of board_last_cell) =
     Ok (Spec.is_empty board_last_cell (Z.to_nat (n - 1)),
         store_of board_last_cell)) /\
  (forall n, -8 <= n <= 0 ->
     is_valid_move (MkGame 0%nat (fun _ => HumanPlayer X) O) (Move n)
       (store_of board_last_cell) =
     Ok (Spec.is_empty board_last_cell (Z.to_nat (8 + n)),
         store_of board_last_cell)) /\
  (forall n, n < -8 \/ 9 < n ->
     is_valid_move (MkGame 0%nat (fun _ => HumanPlayer X) O) (Move n)
       (store_of board_last_cell) = Raise IndexError) /\
  is_valid_move (MkGame 0%nat (fun _ => HumanPlayer X) O) NoMove
    (store_of board_last_cell) = Raise TypeError.
Proof.
  apply (is_valid_move_indexing (MkGame 0%nat (fun _ => HumanPlayer X) O)
           (store_of board_last_cell) board_last_cell);
    [apply points_to_store_of|reflexivity].
Defined.

(** X7. [make_move(move)], for a move from 1 to 9: on an empty cell it
    returns [True] and writes the current player's symbol in cell
    [move - 1] of the list the state already holds (the same list object,
    all other objects untouched); on an occupied cell it returns [False]
    and changes nothing. *)
Theorem make_move_in_place (game : Game) (h : store) (b : list cell)
  (l : loc) :
  objs h !! state game = Some l -> lists h !! l = Some b ->
  length b = 9%nat ->
  (forall n, 1 <= n <= 9 -> b !! Z.to_nat (n - 1) = Some Empty ->
     exists h',
       make_move game (Move n) h = Ok (true, h') /\
       objs h' = objs h /\
       lists h' !! l =
         Some (<[Z.to_nat (n - 1) := Mark (current_player game)]> b) /\
       (forall l', l' <> l -> lists h' !! l' = lists h !! l')) /\
  (forall n m, 1 <= n <= 9 -> b !! Z.to_nat (n - 1) = Some (Mark m) ->
     make_move game (Move n) h = Ok (false, h)).
Proof.
  intros H1 H2 Hb. split.
  - intros n Hn Hc. eexists. split.
    + apply (make_move_run game h b n l H1 H2); [lia|exact Hc].
    + cbn [objs lists]. split; [reflexivity|]. split.
      * apply lookup_insert_eq.
      * intros l' Hne. now apply lookup_insert_ne.
  - intros n m Hn Hc. apply (make_move_rejects game h b n m);
      [exists l; now split|lia|exact Hc].
Qed.

Lemma make_move_in_place_witness :
  (forall n, 1 <= n <= 9 ->
     board_last_cell !! Z.to_nat (n - 1) = Some Empty ->
     exists h',
       make_move (MkGame 0%nat (fun _ => HumanPlayer X) O) (Move n)
         (store_of board_last_cell) = Ok (true, h') /\
       objs h' = objs (store_of board_last_cell) /\
       lists h' !! 0%nat = Some (<[Z.to_nat (n - 1) := Mark O]> board_last_cell) /\
       (forall l', l' <> 0%nat ->
          lists h' !! l' = lists (store_of board_last_cell) !! l')) /\
  (forall n m, 1 <= n <= 9 ->
     board_last_cell !! Z.to_nat (n - 1) = Some (Mark m) ->
     make_move (MkGame 0%nat (fun _ => HumanPlayer X) O) (Move n)
       (store_of board_last_cell) = Ok (false, store_of board_last_cell)).
Proof.
  apply (make_move_in_place (MkGame 0%nat (fun _ => HumanPlayer X) O)
           (store_of board_last_cell) board_last_cell 0%nat);
    [apply lookup_singleton_eq|apply lookup_singleton_eq|reflexivity].
Defined.

(** ** The moves of the players *)

Lemma ai_get_move_run (symbol : mark) (d : nat) (game : Game) (h : store)
  (b : list cell) :
  points_to h (state game) b -> length b = 9%nat ->
  Spec.terminal b = false ->
  exists m h',
    ai_get_move symbol (S d) game h = Ok (Move (Z.of_nat m), h') /\
    (1 <= m <= 9)%nat /\
    b !! (m - 1)%nat = Some Empty /\
    extends h h'.
Proof.
  intros Hp Hb Ht.
  destruct (recursive_choice h (state game) b symbol d NegInf PosInf None
              Hp Hb Ht)
    as (scores & moves & h' & k & score & mv & _ & Hcall & _ & Hext & _ & _
        & _ & Hm & _ & _ & Hcells & _).
  exists mv, h'. unfold ai_get_move.
  rewrite (bind_Ok _ _ _ _ _ Hcall). cbn [snd].
  split; [reflexivity|]. destruct (Hcells k mv Hm) as [Hr Hc].
  split; [exact Hr|]. split; [exact Hc|exact Hext].
Qed.

Lemma ai_get_move_raises (symbol : mark) (depth : nat) (game : Game)
  (h : store) (b : list cell) :
  points_to h (state game) b -> length b = 9%nat ->
  Spec.terminal b = true \/ depth = 0%nat ->
  ai_get_move symbol depth game h = Raise TypeError.
Proof.
  intros Hp Hb Hcase.
  pose proof (minimax_pruning_run depth h (state game) b symbol NegInf PosInf
                None Hp Hb) as H.
  replace (trace_fails b depth None) with true in H.
  - unfold ai_get_move, bind. now rewrite H.
  - unfold trace_fails. destruct Hcase as [->| ->]; [reflexivity|].
    now rewrite orb_true_r.
Qed.

(** X8. [AIPlayer.get_move] on a board that is not terminal, with a depth
    of at least 1 and whatever symbol the player holds: it returns a move
    from 1 to 9 on an empty cell, leaves the board of the game as it was,
    and [make_move] accepts that move.  With depth 0, or on a terminal
    board, it raises [TypeError]. *)
Theorem ai_move_is_accepted (symbol : mark) (depth : nat) (game : Game)
  (h : store) (b : list cell) :
  points_to h (state game) b -> length b = 9%nat ->
  (is_terminal b = Ok false -> depth <> 0%nat ->
   exists n h' h'',
     ai_get_move symbol depth game h = Ok (Move n, h') /\
     1 <= n <= 9 /\
     b !! Z.to_nat (n - 1) = Some Empty /\
     points_to h' (state game) b /\
     make_move game (Move n) h' = Ok (true, h'') /\
     points_to h'' (state game)
       (<[Z.to_nat (n - 1) := Mark (current_player game)]> b)) /\
  (is_terminal b = Ok true \/ depth = 0%nat ->
   ai_get_move symbol depth game h = Raise TypeError).
Proof.
  intros Hp Hb. split.
  - intros Ht Hd. apply is_terminal_false in Ht; [|exact Hb].
    destruct depth as [|d]; [contradiction|].
    destruct (ai_get_move_run symbol d game h b Hp Hb Ht)
      as (m & h' & E & Hm & Hc & Hext).
    assert (Hidx : Z.to_nat (Z.of_nat m - 1) = (m - 1)%nat) by lia.
    pose proof (points_to_extends h h' (state game) b Hext Hp) as Hp'.
    destruct Hp' as (l & H1 & H2).
    exists (Z.of_nat m), h'.
    exists (Store (objs h')
              (<[l := <[(m - 1)%nat := Mark (current_player game)]> b]>
                 (lists h'))).
    split; [exact E|]. split; [lia|]. rewrite Hidx.
    split; [exact Hc|]. split; [exists l; now split|]. split.
    + rewrite (make_move_run game h' b (Z.of_nat m) l H1 H2);
        [now rewrite Hidx|lia|now rewrite Hidx].
    + exists l. cbn [objs lists]. split; [exact H1|].
      apply lookup_insert_eq.
  - intros [Ht|Hd].
    + apply is_terminal_true in Ht; [|exact Hb].
      apply (ai_get_move_raises symbol depth game h b Hp Hb). now left.
    + apply (ai_get_move_raises symbol depth game h b Hp Hb). now right.
Qed.

Lemma ai_move_is_accepted_witness :
  (is_terminal board_win_in_one = Ok false -> 2%nat <> 0%nat ->
   exists n h' h'',
     ai_get_move O 2 (MkGame 0%nat (fun _ => AIPlayer O 2) X)
       (store_of board_win_in_one) = Ok (Move n, h') /\
     1 <= n <= 9 /\
     board_win_in_one !! Z.to_nat (n - 1) = Some Empty /\
     points_to h' 0%nat board_win_in_one /\
     make_move (MkGame 0%nat (fun _ => AIPlayer O 2) X) (Move n) h' =
       Ok (true, h'') /\
     points_to h'' 0%nat (<[Z.to_nat (n - 1) := Mark X]> board_win_in_one)) /\
  (is_terminal board_win_in_one = Ok true \/ 2%nat = 0%nat ->
   ai_get_move O 2 (MkGame 0%nat (fun _ => AIPlayer O 2) X)
     (store_of board_win_in_one) = Raise TypeError).
Proof.
  apply (ai_move_is_accepted O 2 (MkGame 0%nat (fun _ => AIPlayer O 2) X)
           (store_of board_win_in_one) board_win_in_one);
    [apply points_to_store_of|reflexivity].
Defined.

Lemma accepts_valid (game : Game) (h : store) (b : list cell) (n : Z) :
  points_to h (state game) b -> length b = 9%nat -> 1 <= n <= 9 ->
  is_valid_move game (Move n) h =
  Ok (Spec.is_empty b (Z.to_nat (n - 1)), h).
Proof.
  intros Hp Hb Hn.
  destruct (lookup_lt_is_Some_2 b (Z.to_nat (n - 1))) as [c Hc]; [lia|].
  rewrite (is_valid_move_cell game h b n c Hp) by (assumption || lia).
  unfold Spec.is_empty. now rewrite (at_lookup b _ c Hc).
Qed.

Lemma human_get_move_skip (game : Game) (h : store) (b : list cell)
  (ln : line) (rest : list line) :
  points_to h (state game) b -> length b = 9%nat ->
  accepts b ln = false ->
  human_get_move game (ln :: rest) h = human_get_move game rest h.
Proof.
  intros Hp Hb Hrej. destruct ln as [n|]; [|reflexivity].
  cbn [human_get_move]. unfold accepts in Hrej.
  destruct ((1 <=? n) && (n <=? 9)) eqn:Hrange; [|reflexivity].
  cbn [andb] in Hrej.
  rewrite (accepts_valid game h b n Hp Hb) by lia. now rewrite Hrej.
Qed.

Lemma human_get_move_take (game : Game) (h : store) (b : list cell)
  (n : Z) (rest : list line) :
  points_to h (state game) b -> length b = 9%nat ->
  accepts b (IntLine n) = true ->
  human_get_move game (IntLine n :: rest) h = Done (Move n) rest h.
Proof.
  intros Hp Hb Hacc. cbn [human_get_move]. unfold accepts in Hacc.
  apply andb_prop in Hacc as [Hrange He]. rewrite Hrange.
  rewrite (accepts_valid game h b n Hp Hb) by lia. now rewrite He.
Qed.

(** X9. [HumanPlayer.get_move] returns the first line of the input that is
    an integer from 1 to 9 on an empty cell; the lines before it (not a
    number, out of range, occupied cell) are read and dropped; the store is
    not changed.  When no line is acceptable the input runs out and
    [input()] raises [EOFError]. *)
Theorem human_takes_first_acceptable (game : Game) (h : store)
  (b : list cell) :
  points_to h (state game) b -> length b = 9%nat ->
  (forall skipped n rest,
     Forall (fun ln => accepts b ln = false) skipped ->
     accepts b (IntLine n) = true ->
     human_get_move game (skipped ++ IntLine n :: rest) h =
     Done (Move n) rest h) /\
  (forall inputs,
     Forall (fun ln => accepts b ln = false) inputs ->
     human_get_move game inputs h = Fail EOFError).
Proof.
  intros Hp Hb. split.
  - intros skipped n rest Hskip Hacc.
    induction Hskip as [|ln skipped Hrej _ IH]; cbn [app].
    + now apply (human_get_move_take game h b).
    + now rewrite (human_get_move_skip game h b).
  - intros inputs Hall. induction Hall as [|ln inputs Hrej _ IH];
      [reflexivity|].
    now rewrite (human_get_move_skip game h b).
Qed.

Lemma human_takes_first_acceptable_witness :
  (forall skipped n rest,
     Forall (fun ln => accepts board_win_in_one ln = false) skipped ->
     accepts board_win_in_one (IntLine n) = true ->
     human_get_move (MkGame 0%nat (fun _ => HumanPlayer X) X)
       (skipped ++ IntLine n :: rest) (store_of board_win_in_one) =
     Done (Move n) rest (store_of board_win_in_one)) /\
  (forall inputs,
     Forall (fun ln => accepts board_win_in_one ln = false) inputs ->
     human_get_move (MkGame 0%nat (fun _ => HumanPlayer X) X) inputs
       (store_of board_win_in_one) = Fail EOFError).
Proof.
  apply (human_takes_first_acceptable
           (MkGame 0%nat (fun _ => HumanPlayer X) X)
           (store_of board_win_in_one) board_win_in_one);
    [apply points_to_store_of|reflexivity].
Defined.

(** What [get_move] gives for a player that can move, on a board that is
    not terminal. *)
Lemma get_move_run (p : Player) (game : Game) (inputs : list line)
  (h : store) (b : list cell) :
  points_to h (state game) b -> length b = 9%nat ->
  Spec.terminal b = false -> can_move p ->
  match get_move p game inputs h with
  | Done (Move n) inputs' h' =>
      1 <= n <= 9 /\ b !! Z.to_nat (n - 1) = Some Empty /\
      points_to h' (state game) b /\
      (is_human p \/ inputs' = inputs)
  | Done NoMove _ _ => False
  | Fail e => e = EOFError /\ is_human p
  end.
Proof.
  intros Hp Hb Ht Hcan. destruct p as [sym|sym|sym depth]; cbn [get_move].
  - destruct Hcan.
  - clear Hcan. induction inputs as [|ln rest IH]; [now split|].
    destruct (accepts b ln) eqn:Hacc.
    + destruct ln as [n|]; [|discriminate Hacc].
      rewrite (human_get_move_take game h b n rest Hp Hb Hacc).
      unfold accepts in Hacc. apply andb_prop in Hacc as [Hrange He].
      apply andb_prop in Hrange as [H1 H2].
      split; [lia|]. split; [|split; [exact Hp|now left]].
      apply is_empty_lookup; [lia|exact He].
    + rewrite (human_get_move_skip game h b ln rest Hp Hb Hacc).
      destruct (human_get_move game rest h) as [[|n] inputs' h'|e];
        [exact IH| |exact IH].
      destruct IH as (H1 & H2 & H3 & _).
      split; [exact H1|]. split; [exact H2|]. split; [exact H3|now left].
  - cbn [can_move] in Hcan. destruct depth as [|d]; [contradiction|].
    destruct (ai_get_move_run sym d game h b Hp Hb Ht)
      as (m & h' & E & Hm & Hc & Hext).
    unfold io_lift. rewrite E. split; [lia|].
    replace (Z.to_nat (Z.of_nat m - 1)) with (m - 1)%nat by lia.
    split; [exact Hc|]. split; [|now right].
    eapply points_to_extends; eassumption.
Qed.

(** ** The loop of [play] *)

Lemma filter_insert_length (f : cell -> bool) (b : list cell) (i : nat)
  (old new : cell) :
  b !! i = Some old ->
  (length (List.filter f (<[i := new]> b)) + (if f old then 1 else 0) =
   length (List.filter f b) + (if f new then 1 else 0))%nat.
Proof.
  revert i. induction b as [|c0 b IH]; intros i Hi; [discriminate Hi|].
  destruct i as [|i]; cbn in Hi.
  - injection Hi as ->.
    change (<[0%nat := new]> (old :: b)) with (new :: b).
    cbn [List.filter]. destruct (f old), (f new); cbn [length]; lia.
  - specialize (IH i Hi).
    change (<[S i := new]> (c0 :: b)) with (c0 :: <[i := new]> b).
    cbn [List.filter]. destruct (f c0); cbn [length]; lia.
Qed.

Lemma count_cells_insert (c : cell) (p : mark) (b : list cell) (i : nat) :
  b !! i = Some Empty ->
  (count_cells c (<[i := Mark p]> b) + match c with Empty => 1 | _ => 0 end =
   count_cells c b +
   match c with
   | Mark m => if mark_eqb m p then 1 else 0
   | Empty => 0
   end)%nat.
Proof.
  intros Hi. unfold count_cells.
  pose proof (filter_insert_length
                (fun c' =>
                   match c, c' with
                   | Empty, Empty => true
                   | Mark m, Mark m' => mark_eqb m m'
                   | _, _ => false
                   end) b i Empty (Mark p) Hi) as H.
  destruct c as [|m]; cbn beta iota in H |- *; lia.
Qed.

Lemma count_place (b : list cell) (i : nat) (p : mark) :
  b !! i = Some Empty ->
  count_cells (Mark p) (<[i := Mark p]> b) = S (count_cells (Mark p) b) /\
  count_cells (Mark (opponent p)) (<[i := Mark p]> b) =
    count_cells (Mark (opponent p)) b /\
  S (count_cells Empty (<[i := Mark p]> b)) = count_cells Empty b.
Proof.
  intros Hi.
  pose proof (count_cells_insert (Mark p) p b i Hi) as H1.
  pose proof (count_cells_insert (Mark (opponent p)) p b i Hi) as H2.
  pose proof (count_cells_insert Empty p b i Hi) as H3.
  cbn beta iota in H1, H2, H3.
  replace (mark_eqb p p) with true in H1 by (now destruct p).
  replace (mark_eqb (opponent p) p) with false in H2 by (now destruct p).
  lia.
Qed.

Lemma no_empty_cell_full (b : list cell) :
  count_cells Empty b = 0%nat -> Spec.full b = true.
Proof.
  unfold count_cells, Spec.full. induction b as [|c b IH]; [reflexivity|].
  cbn [List.filter forallb]. destruct c; cbn [length andb]; [lia|exact IH].
Qed.

Lemma State_display_run (h : store) (s : loc) (b : list cell) :
  points_to h s b -> length b = 9%nat -> State_display s h = Ok (tt, h).
Proof.
  intros Hp Hb. unfold State_display.
  rewrite (read_board h s b) by exact Hp. board9 b Hb. reflexivity.
Qed.

Lemma State_is_terminal_run (h : store) (s : loc) (b : list cell) :
  points_to h s b -> length b = 9%nat ->
  State_is_terminal s h = Ok (Spec.terminal b, h).
Proof.
  intros Hp Hb. unfold State_is_terminal.
  rewrite (read_board h s b) by exact Hp.
  unfold lift. now rewrite is_terminal_spec.
Qed.

Lemma announce_run (game : Game) (h : store) (b : list cell) :
  points_to h (state game) b -> length b = 9%nat ->
  announce game h =
  Ok (if Spec.winner b X then Winner X
      else if Spec.winner b O then Winner O else Draw, h).
Proof.
  intros Hp Hb. unfold announce.
  rewrite (bind_Ok _ _ _ _ _ (State_display_run h (state game) b Hp Hb)).
  rewrite (bind_Ok _ _ _ _ _ (State_is_winner_run h (state game) b X Hp Hb)).
  destruct (Spec.winner b X); [reflexivity|].
  rewrite (bind_Ok _ _ _ _ _ (State_is_winner_run h (state game) b O Hp Hb)).
  now destruct (Spec.winner b O).
Qed.

Lemma opponent_involutive (p : mark) : opponent (opponent p) = p.
Proof. now destruct p. Qed.

(** The loop of [play] with players that can move: enough rounds for the
    empty cells. *)
Lemma play_loop_run (rounds : nat) :
  forall game inputs h b,
    points_to h (state game) b -> length b = 9%nat ->
    can_move (players game X) -> can_move (players game O) ->
    (count_cells Empty b < rounds)%nat ->
    match play_loop rounds game inputs h with
    | Done (Some game') inputs' h' =>
        exists b' kc ko,
          points_to h' (state game) b' /\
          length b' = 9%nat /\
          Spec.terminal b' = true /\
          state game' = state game /\
          players game' = players game /\
          (forall i m, b !! i = Some (Mark m) -> b' !! i = Some (Mark m)) /\
          count_cells (Mark (current_player game)) b' =
            (count_cells (Mark (current_player game)) b + kc)%nat /\
          count_cells (Mark (opponent (current_player game))) b' =
            (count_cells (Mark (opponent (current_player game))) b + ko)%nat /\
          (kc = ko /\ current_player game' = current_player game \/
           kc = S ko /\
           current_player game' = opponent (current_player game)) /\
          (is_human (players game X) \/ is_human (players game O) \/
           inputs' = inputs)
    | Done None _ _ => False
    | Fail e =>
        e = EOFError /\
        (is_human (players game X) \/ is_human (players game O))
    end.
Proof.
  induction rounds as [|r IH]; intros game inputs h b Hp Hb HX HO Hr; [lia|].
  cbn [play_loop]. unfold io_bind at 1. unfold io_lift at 1.
  rewrite (State_is_terminal_run h (state game) b Hp Hb).
  destruct (Spec.terminal b) eqn:Ht.
  - cbn [io_ret]. exists b, 0%nat, 0%nat.
    repeat (split; [first [assumption|reflexivity|lia|now intros]|]).
    split; [now left|now right; right].
  - unfold io_bind at 1. unfold io_lift at 1.
    rewrite (State_display_run h (state game) b Hp Hb).
    unfold io_bind at 1.
    assert (Hcan : can_move (players game (current_player game)))
      by (now destruct (current_player game)).
    pose proof (get_move_run (players game (current_player game)) game
                  inputs h b Hp Hb Ht Hcan) as Hmove.
    destruct (get_move (players game (current_player game)) game inputs h)
      as [[|n] inputs1 h1|e].
    + destruct Hmove.
    + destruct Hmove as (Hn & Hc & Hp1 & Hin).
      destruct Hp1 as (l & H1 & H2).
      unfold io_bind at 1. unfold io_lift at 1.
      rewrite (make_move_run game h1 b n l H1 H2) by (assumption || lia).
      set (b1 := <[Z.to_nat (n - 1) := Mark (current_player game)]> b).
      destruct (count_place b (Z.to_nat (n - 1)) (current_player game) Hc)
        as (Hc1 & Hc2 & Hc3). fold b1 in Hc1, Hc2, Hc3.
      match goal with
      | |- match play_loop r ?g ?i ?hh with _ => _ end =>
          pose proof (IH g i hh b1) as IH'
      end.
      cbn [switch_player state players current_player objs lists] in IH'.
      specialize (IH' ltac:(exists l; split; [exact H1|apply lookup_insert_eq])
                      ltac:(unfold b1; now rewrite length_insert)
                      HX HO ltac:(lia)).
      match goal with
      | |- match ?x with _ => _ end =>
          destruct x as [[g'|] inputs' h'|e]
      end; [|exact IH'|].
      * destruct IH' as (b' & kc & ko & Hp' & Hb' & Ht' & Hs' & Hpl' & Hkeep
                         & Hcnt1 & Hcnt2 & Hturn & Hin').
        rewrite opponent_involutive in Hcnt2.
        exists b', (S ko), kc.
        split; [exact Hp'|]. split; [exact Hb'|]. split; [exact Ht'|].
        split; [exact Hs'|]. split; [exact Hpl'|].
        split; [|split; [lia|split; [lia|]]].
        -- intros i m Hi. apply Hkeep. unfold b1.
           rewrite list_lookup_insert_ne; [exact Hi|]. congruence.
        -- rewrite opponent_involutive in Hturn. split.
           ++ destruct Hturn as [[-> Hcur]|[-> Hcur]]; [right|left];
                now split.
           ++ destruct Hin' as [?|[?| ->]]; [now left|now right; left|].
              destruct Hin as [Hh| ->]; [|now right; right].
              destruct (current_player game); [now left|now right; left].
      * exact IH'.
    + destruct Hmove as [-> Hh]. split; [reflexivity|].
      destruct (current_player game); [now left|now right].
Qed.

Lemma Game_new_run (player_X player_O : Player) (h : store) :
  exists s h',
    Game_new player_X player_O h =
      Ok (MkGame s
            (fun m => match m with X => player_X | O => player_O end) O,
          h') /\
    points_to h' s (replicate 9 Empty).
Proof.
  unfold Game_new. rewrite (bind_Ok _ _ _ _ _ (State_new_run h)).
  eexists _, _. split; [reflexivity|].
  exists (fresh (dom (lists h))). cbn [objs lists].
  split; apply lookup_insert_eq.
Qed.

(** X10. [play] with players that can move (humans, or searches of depth
    at least 1), started on any board of the game with more rounds than
    empty cells: the loop stops within those rounds, on a terminal board
    that keeps every mark of the starting board, and the verdict printed is
    the symbol [is_winner] reports, or a draw on a full board without a
    line.  The only exception is [EOFError], when a human's input runs
    out. *)
Theorem play_ends_on_terminal_board (rounds : nat) (game : Game)
  (inputs : list line) (h : store) (b : list cell) :
  points_to h (state game) b -> length b = 9%nat ->
  can_move (players game X) -> can_move (players game O) ->
  (count_cells Empty b < rounds)%nat ->
  match play rounds game inputs h with
  | Done (Some v) inputs' h' =>
      exists b',
        points_to h' (state game) b' /\
        length b' = 9%nat /\
        is_terminal b' = Ok true /\
        (forall i m, b !! i = Some (Mark m) -> b' !! i = Some (Mark m)) /\
        match v with
        | Winner m => is_winner b' m = Ok true
        | Draw =>
            is_winner b' X = Ok false /\ is_winner b' O = Ok false /\
            is_full b' = true
        end
  | Done None _ _ => False
  | Fail e =>
      e = EOFError /\
      (is_human (players game X) \/ is_human (players game O))
  end.
Proof.
  intros Hp Hb HX HO Hr. unfold play, io_bind.
  pose proof (play_loop_run rounds game inputs h b Hp Hb HX HO Hr) as H.
  destruct (play_loop rounds game inputs h) as [[g'|] inputs' h'|e];
    [|exact H|exact H].
  destruct H as (b' & kc & ko & Hp' & Hb' & Ht' & Hs' & _ & Hkeep & _).
  unfold io_lift. rewrite <- Hs' in Hp'.
  rewrite (announce_run g' h' b' Hp' Hb'). cbn [io_ret].
  exists b'. rewrite Hs' in Hp'.
  split; [exact Hp'|]. split; [exact Hb'|].
  split; [now rewrite is_terminal_spec, Ht'|]. split; [exact Hkeep|].
  unfold Spec.terminal in Ht'.
  destruct (Spec.winner b' X) eqn:Hx;
    [now rewrite is_winner_spec, Hx by exact Hb'|].
  destruct (Spec.winner b' O) eqn:Ho;
    [now rewrite is_winner_spec, Ho by exact Hb'|].
  rewrite !is_winner_spec, is_full_spec, Hx, Ho by exact Hb'.
  cbn [orb] in Ht'. now rewrite Ht'.
Qed.

Lemma play_ends_on_terminal_board_witness :
  match play 7 (MkGame 0%nat (fun _ => AIPlayer O 2) X) [BadLine]
          (store_of board_win_in_one) with
  | Done (Some v) inputs' h' =>
      exists b',
        points_to h' 0%nat b' /\
        length b' = 9%nat /\
        is_terminal b' = Ok true /\
        (forall i m, board_win_in_one !! i = Some (Mark m) ->
           b' !! i = Some (Mark m)) /\
        match v with
        | Winner m => is_winner b' m = Ok true
        | Draw =>
            is_winner b' X = Ok false /\ is_winner b' O = Ok false /\
            is_full b' = true
        end
  | Done None _ _ => False
  | Fail e =>
      e = EOFError /\
      (is_human (AIPlayer O 2) \/ is_human (AIPlayer O 2))
  end.
Proof.
  apply (play_ends_on_terminal_board 7
           (MkGame 0%nat (fun _ => AIPlayer O 2) X) [BadLine]
           (store_of board_win_in_one) board_win_in_one);
    [apply points_to_store_of|reflexivity|discriminate|discriminate
    |cbn; lia].
Defined.

(** X11. In the loop of [play] the two symbols are written in turn,
    starting with the current player: when the loop stops, the current
    player has gained as many marks as the opponent, or one more, and it is
    the turn of the player who did not write the last mark. *)
Theorem play_marks_alternate (rounds : nat) (game : Game)
  (inputs : list line) (h : store) (b : list cell) :
  points_to h (state game) b -> length b = 9%nat ->
  can_move (players game X) -> can_move (players game O) ->
  (count_cells Empty b < rounds)%nat ->
  match play_loop rounds game inputs h with
  | Done (Some game') inputs' h' =>
      exists b' kc ko,
        points_to h' (state game) b' /\
        count_cells (Mark (current_player game)) b' =
          (count_cells (Mark (current_player game)) b + kc)%nat /\
        count_cells (Mark (opponent (current_player game))) b' =
          (count_cells (Mark (opponent (current_player game))) b + ko)%nat /\
        (kc = ko /\ current_player game' = current_player game \/
         kc = S ko /\
         current_player game' = opponent (current_player game)) /\
        (is_human (players game X) \/ is_human (players game O) \/
         inputs' = inputs)
  | Done None _ _ => False
  | Fail e => e = EOFError
  end.
Proof.
  intros Hp Hb HX HO Hr.
  pose proof (play_loop_run rounds game inputs h b Hp Hb HX HO Hr) as H.
  destruct (play_loop rounds game inputs h) as [[g'|] inputs' h'|e];
    [|exact H|now destruct H].
  destruct H as (b' & kc & ko & Hp' & _ & _ & _ & _ & _ & H1 & H2 & H3 & H4).
  exists b', kc, ko. repeat split; assumption.
Qed.

Lemma play_marks_alternate_witness :
  match play_loop 7 (MkGame 0%nat (fun _ => AIPlayer O 2) X) [BadLine]
          (store_of board_win_in_one) with
  | Done (Some game') inputs' h' =>
      exists b' kc ko,
        points_to h' 0%nat b' /\
        count_cells (Mark X) b' =
          (count_cells (Mark X) board_win_in_one + kc)%nat /\
        count_cells (Mark (opponent X)) b' =
          (count_cells (Mark (opponent X)) board_win_in_one + ko)%nat /\
        (kc = ko /\ current_player game' = X \/
         kc = S ko /\ current_player game' = opponent X) /\
        (is_human (AIPlayer O 2) \/ is_human (AIPlayer O 2) \/
         inputs' = [BadLine])
  | Done None _ _ => False
  | Fail e => e = EOFError
  end.
Proof.
  apply (play_marks_alternate 7
           (MkGame 0%nat (fun _ => AIPlayer O 2) X) [BadLine]
           (store_of board_win_in_one) board_win_in_one);
    [apply points_to_store_of|reflexivity|discriminate|discriminate
    |cbn; lia].
Defined.

(** X12. A game created by [Game(player_X, player_O)] and played by players
    that can move ends on a terminal board where O, who starts, has as many
    marks as X or one more. *)
Theorem new_game_mark_counts (player_X player_O : Player) (rounds : nat)
  (inputs : list line) (h : store) :
  can_move player_X -> can_move player_O -> (10 <= rounds)%nat ->
  match
    (game <<- io_lift (Game_new player_X player_O) ;; play_loop rounds game)
      inputs h
  with
  | Done (Some game') inputs' h' =>
      exists b',
        points_to h' (state game') b' /\
        length b' = 9%nat /\
        is_terminal b' = Ok true /\
        (count_cells (Mark O) b' = count_cells (Mark X) b' \/
         count_cells (Mark O) b' = S (count_cells (Mark X) b'))
  | Done None _ _ => False
  | Fail e => e = EOFError /\ (is_human player_X \/ is_human player_O)
  end.
Proof.
  intros HX HO Hr. unfold io_bind at 1. unfold io_lift at 1.
  destruct (Game_new_run player_X player_O h) as (s & h1 & E & Hp).
  rewrite E.
  pose proof (play_loop_run rounds
                (MkGame s
                   (fun m => match m with X => player_X | O => player_O end)
                   O) inputs h1 (replicate 9 Empty) Hp eq_refl HX HO) as H.
  cbn [state players current_player opponent] in H.
  specialize (H ltac:(cbn; lia)).
  match goal with
  | |- match ?x with _ => _ end => destruct x as [[g'|] inputs' h'|e]
  end; [|exact H|exact H].
  destruct H as (b' & kc & ko & Hp' & Hb' & Ht' & Hs' & _ & _ & H1 & H2 & H3
                 & _).
  exists b'. rewrite Hs'. split; [exact Hp'|]. split; [exact Hb'|].
  split; [now rewrite is_terminal_spec, Ht'|].
  change (count_cells (Mark O) (replicate 9 Empty)) with 0%nat in H1.
  change (count_cells (Mark X) (replicate 9 Empty)) with 0%nat in H2.
  destruct H3 as [[-> _]|[-> _]]; [left|right]; lia.
Qed.

Lemma new_game_mark_counts_witness :
  match
    (game <<- io_lift (Game_new (AIPlayer X 1) (HumanPlayer O)) ;;
     play_loop 10 game) [IntLine 5] (Store ∅ ∅)
  with
  | Done (Some game') inputs' h' =>
      exists b',
        points_to h' (state game') b' /\
        length b' = 9%nat /\
        is_terminal b' = Ok true /\
        (count_cells (Mark O) b' = count_cells (Mark X) b' \/
         count_cells (Mark O) b' = S (count_cells (Mark X) b'))
  | Done None _ _ => False
  | Fail e =>
      e = EOFError /\
      (is_human (AIPlayer X 1) \/ is_human (HumanPlayer O))
  end.
Proof.
  apply (new_game_mark_counts (AIPlayer X 1) (HumanPlayer O) 10
           [IntLine 5] (Store ∅ ∅));
    [discriminate|exact I|lia].
Defined.

(** X13. The script ([AIPlayer("X", depth=1)] against
    [AIPlayer("O", depth=3)]) raises no exception: with at least ten rounds
    the game reaches its end and a verdict is printed, and no line of the
    input is read. *)
Theorem script_ends_with_verdict (rounds : nat) (inputs : list line) :
  (10 <= rounds)%nat ->
  exists v h', main rounds inputs = Done (Some v) inputs h'.
Proof.
  intros Hr. unfold main, play. unfold io_bind at 1. unfold io_lift at 1.
  destruct (Game_new_run (AIPlayer X 1) (AIPlayer O 3) (Store ∅ ∅))
    as (s & h1 & E & Hp).
  rewrite E. unfold io_bind at 1.
  pose proof (play_loop_run rounds
                (MkGame s
                   (fun m =>
                      match m with X => AIPlayer X 1 | O => AIPlayer O 3 end)
                   O) inputs h1 (replicate 9 Empty) Hp eq_refl) as H.
  cbn [state players current_player opponent can_move is_human] in H.
  specialize (H ltac:(discriminate) ltac:(discriminate) ltac:(cbn; lia)).
  match goal with
  | |- context [play_loop rounds ?g inputs h1] =>
      destruct (play_loop rounds g inputs h1) as [[g'|] inputs' h'|e]
  end.
  - destruct H as (b' & kc & ko & Hp' & Hb' & _ & Hs' & _ & _ & _ & _ & _
                   & Hin).
    destruct Hin as [[]|[[]| ->]].
    cbn [state] in Hs', Hp'. rewrite <- Hs' in Hp'.
    unfold io_bind, io_lift. rewrite (announce_run g' h' b' Hp' Hb').
    cbn [io_ret]. eauto.
  - destruct H.
  - destruct H as [_ [[]|[]]].
Qed.

Lemma script_ends_with_verdict_witness :
  exists v h', main 10 [BadLine; IntLine 3] =
               Done (Some v) [BadLine; IntLine 3] h'.
Proof.
  apply (script_ends_with_verdict 10 [BadLine; IntLine 3]). lia.
Defined.

(** X14. [play] on a board that is not terminal raises as soon as the
    player to move cannot: [TypeError] for an [AIPlayer] of depth 0 (the
    trace line of [minimax_pruning]), [NotImplementedError] for a plain
    [Player]. *)
Theorem play_raises_when_player_cannot_move (rounds : nat) (game : Game)
  (inputs : list line) (h : store) (b : list cell) :
  points_to h (state game) b -> length b = 9%nat ->
  is_terminal b = Ok false ->
  (forall symbol,
     players game (current_player game) = AIPlayer symbol 0 ->
     play (S rounds) game inputs h = Fail (Exn TypeError)) /\
  (forall symbol,
     players game (current_player game) = PlayerBase symbol ->
     play (S rounds) game inputs h = Fail NotImplementedError).
Proof.
  intros Hp Hb Ht. apply is_terminal_false in Ht; [|exact Hb].
  assert (Hloop :
    play_loop (S rounds) game inputs h =
    match get_move (players game (current_player game)) game inputs h with
    | Done mv inputs' h' =>
        (moved <<- io_lift (make_move game mv) ;;
         play_loop rounds (if moved then switch_player game else game))
          inputs' h'
    | Fail e => Fail e
    end).
  { cbn [play_loop]. unfold io_bind at 1. unfold io_lift at 1.
    rewrite (State_is_terminal_run h (state game) b Hp Hb), Ht.
    unfold io_bind at 1. unfold io_lift at 1.
    rewrite (State_display_run h (state game) b Hp Hb).
    unfold io_bind at 1. reflexivity. }
  split; intros symbol Hpl; unfold play; unfold io_bind at 1;
    rewrite Hloop, Hpl; cbn [get_move]; [|reflexivity].
  unfold io_lift.
  rewrite (ai_get_move_raises symbol 0 game h b Hp Hb); [reflexivity|].
  now right.
Qed.

Lemma play_raises_when_player_cannot_move_witness :
  (forall symbol,
     players (MkGame 0%nat (fun _ => AIPlayer X 0) O)
       (current_player (MkGame 0%nat (fun _ => AIPlayer X 0) O)) =
     AIPlayer symbol 0 ->
     play 3 (MkGame 0%nat (fun _ => AIPlayer X 0) O) []
       (store_of board_win_in_one) = Fail (Exn TypeError)) /\
  (forall symbol,
     players (MkGame 0%nat (fun _ => AIPlayer X 0) O)
       (current_player (MkGame 0%nat (fun _ => AIPlayer X 0) O)) =
     PlayerBase symbol ->
     play 3 (MkGame 0%nat (fun _ => AIPlayer X 0) O) []
       (store_of board_win_in_one) = Fail NotImplementedError).
Proof.
  apply (play_raises_when_player_cannot_move 2
           (MkGame 0%nat (fun _ => AIPlayer X 0) O) []
           (store_of board_win_in_one) board_win_in_one);
    [apply points_to_store_of|reflexivity|vm_compute; reflexivity].
Defined.
